(** * The BPF simulator of libseccomp: tools/bpf_sim.c

    A shallow embedding of the simulator: the process exits ([exit_fault],
    [exit_error], [end_action]), the execution engine ([bpf_execute]) as a
    step function on the machine state, and the program loader of [main].

    Every path of the C program ends in a call of [exit]; what the process
    wrote on its two streams and the status it passed to [exit] are gathered
    in a [process_exit] record.  Machine integers are values of [Z] with the
    wrap-around of [unsigned int] written out ([u32]). *)

From Stdlib Require Import ZArith String Ascii DecimalString Bool Lia List.
From Stdlib.Strings Require Import Byte.
Import ListNotations.
Local Open Scope string_scope.
Local Open Scope Z_scope.

(** ** Machine integers *)

(** Conversion to [unsigned int] / [uint32_t]. *)
Definition u32 (z : Z) : Z := z mod 2 ^ 32.

(** The value of an [unsigned int] read back as an [int], as the [%d]
    conversion of [fprintf] does. *)
Definition as_int (z : Z) : Z :=
  let w := u32 z in if w <? 2 ^ 31 then w else w - 2 ^ 32.

Definition fmt_d (z : Z) : string := NilZero.string_of_int (Z.to_int (as_int z)).
Definition fmt_u (z : Z) : string := NilZero.string_of_int (Z.to_int (u32 z)).

(** The newline character of the C string literals. *)
Definition nl : string := String (ascii_of_nat 10) EmptyString.

(** ** bpf.h *)

(** Modelled from the spec: [struct bpf_instr] is declared in bpf.h, which
    is not among the sources.  The spec gives the record as
    {opcode, jump-if-true offset, jump-if-false offset, immediate}; the
    immediate is the 32-bit value handed to the action decoder and the jump
    offsets are unsigned. *)
Record bpf_instr : Type := { op : Z; jt : Z; jf : Z; k : Z }.

(** Modelled from the spec: the ranges of the fields of [struct bpf_instr]
    (bpf.h is not among the sources).  The spec has the fields unsigned and
    the immediate a 32-bit value; for the opcode and the two jump offsets
    the widths are those of the instruction record of classic BPF, 16 and
    8 bits. *)
Definition instr_wf (i : bpf_instr) : bool :=
  (0 <=? op i) && (op i <? 2 ^ 16) &&
  (0 <=? jt i) && (jt i <? 2 ^ 8) &&
  (0 <=? jf i) && (jf i <? 2 ^ 8) &&
  (0 <=? k i) && (k i <? 2 ^ 32).

(** The macros of bpf.h that bpf_sim.c uses.  The header is not among the
    sources, so their values are parameters of the development; the size of
    an instruction record and the way its bytes are laid out belong to the
    same header. *)
Class bpf_h : Type := {
  BPF_SCRATCH_SIZE : nat;
  BPF_SYSCALL_MAX_32 : Z;
  BPF_SYSCALL_MAX_64 : Z;
  BPF_LD : Z; BPF_W : Z; BPF_ABS : Z;
  BPF_JMP : Z; BPF_JA : Z; BPF_JEQ : Z; BPF_JGT : Z; BPF_JGE : Z;
  BPF_K : Z; BPF_RET : Z;
  sizeof_bpf_instr : positive;
  bpf_instr_of_bytes : list byte -> bpf_instr
}.

(** The error numbers of the host's errno.h that bpf_sim.c uses. *)
Class errno_h : Type := {
  EINVAL : Z; EFAULT : Z; ENOEXEC : Z; EDOM : Z; ERANGE : Z;
  EOPNOTSUPP : Z; E2BIG : Z; ENOMEM : Z
}.

(** A little-endian 32-bit value of four bytes. *)
Definition le32 (b0 b1 b2 b3 : byte) : Z :=
  Z.of_N (to_N b0) + 2 ^ 8 * Z.of_N (to_N b1)
  + 2 ^ 16 * Z.of_N (to_N b2) + 2 ^ 24 * Z.of_N (to_N b3).

(** One concrete host, used where a statement is evaluated on an explicit
    input: the opcode encoding of classic BPF, an 8-byte little-endian
    instruction record, a record of a 32-bit call number followed by six
    arguments, and the error numbers of Linux. *)
Definition linux_instr_of_bytes (bs : list byte) : bpf_instr :=
  match bs with
  | c0 :: c1 :: t :: f :: k0 :: k1 :: k2 :: k3 :: _ =>
      {| op := Z.of_N (to_N c0) + 2 ^ 8 * Z.of_N (to_N c1);
         jt := Z.of_N (to_N t); jf := Z.of_N (to_N f);
         k := le32 k0 k1 k2 k3 |}
  | _ => {| op := 0; jt := 0; jf := 0; k := 0 |}
  end.

Definition linux_bpf_h : bpf_h := {|
  BPF_SCRATCH_SIZE := 6;
  BPF_SYSCALL_MAX_32 := 28;
  BPF_SYSCALL_MAX_64 := 52;
  BPF_LD := 0x00; BPF_W := 0x00; BPF_ABS := 0x20;
  BPF_JMP := 0x05; BPF_JA := 0x00; BPF_JEQ := 0x10; BPF_JGT := 0x20;
  BPF_JGE := 0x30; BPF_K := 0x00; BPF_RET := 0x06;
  sizeof_bpf_instr := 8;
  bpf_instr_of_bytes := linux_instr_of_bytes
|}.

Definition linux_errno_h : errno_h := {|
  EINVAL := 22; EFAULT := 14; ENOEXEC := 8; EDOM := 33; ERANGE := 34;
  EOPNOTSUPP := 95; E2BIG := 7; ENOMEM := 12
|}.

(** Instructions in the encoding of that host. *)
Definition linux_ld_abs (off : Z) : bpf_instr :=
  {| op := 0x20; jt := 0; jf := 0; k := off |}.
Definition linux_ja (off : Z) : bpf_instr :=
  {| op := 0x05; jt := 0; jf := 0; k := off |}.
Definition linux_jgt_k (imm t f : Z) : bpf_instr :=
  {| op := 0x25; jt := t; jf := f; k := imm |}.
Definition linux_ret_k (action : Z) : bpf_instr :=
  {| op := 0x06; jt := 0; jf := 0; k := action |}.

(** The eight bytes of RETURN-K(0x7fff0000) in a program file of that
    host. *)
Definition ret_allow_record : list byte :=
  [x06; x00; x00; x00; x00; x00; xff; x7f].

(** A program file of [n] such records. *)
Definition ret_allow_file (n : nat) : list byte :=
  concat (repeat ret_allow_record n).

(** What [strtol] with base 0 returns on the strings that are plain
    decimal numbers, and 0 elsewhere; used where a statement on the command
    line is evaluated on an explicit input. *)
Definition strtol_decimal (s : string) : Z :=
  match NilZero.int_of_string s with
  | Some i => Z.of_int i
  | None => 0
  end.

(** ** The process and its exits *)

(** What a run of the simulator leaves behind: the text on stdout, the text
    on stderr and the argument of [exit]. *)
Record process_exit : Type := { out : string; err : string; status : Z }.

(** [#define BPF_PRG_MAX_LEN 4096] *)
Definition BPF_PRG_MAX_LEN : Z := 4096.

(** [struct sim_state]: the accumulator and the scratch memory. *)
Record sim_state : Type := { acc : Z; temp : list Z }.

(** The variables of [bpf_execute] that live from one iteration of its loop
    to the next: the instruction pointer, the pointer of the instruction
    being executed, and the machine state. *)
Record machine : Type := { ip : Z; ip_c : Z; state : sim_state }.

(** The machine after a jump of [d] instructions: the fetch has bumped the
    pointer past the current instruction, then [ip += d]. *)
Definition jump (m : machine) (d : Z) : machine :=
  {| ip := u32 (u32 (ip m + 1) + d); ip_c := ip m; state := state m |}.

(** How a run ends: the process exits, or it reads outside an object, for
    which C defines no behaviour. *)
Inductive outcome : Type :=
| Exits (e : process_exit)
| NoSemantics.

(** One iteration of the loop either goes on with a new machine or ends
    the run. *)
Inductive step_result : Type :=
| Next (m : machine)
| Stop (o : outcome).

(** [read] on a regular file: it delivers the next [count] bytes, or what
    is left of the file when that is less, and 0 bytes at its end.  The
    result is the bytes read and the rest of the file. *)
Definition read (fd : list byte) (count : nat) : list byte * list byte :=
  (firstn count fd, skipn count fd).

(** What an ended run decides, whatever it says on stderr: the text on
    stdout and the exit status. *)
Definition decision (o : outcome) : option (string * Z) :=
  match o with
  | Exits e => Some (out e, status e)
  | NoSemantics => None
  end.

(** Two results of an iteration that differ at most in the text on
    stderr. *)
Definition same_decision (r1 r2 : step_result) : Prop :=
  match r1, r2 with
  | Next m1, Next m2 => m1 = m2
  | Stop o1, Stop o2 => decision o1 = decision o2
  | _, _ => False
  end.

(** ** The command line of [main] *)

(** [exit_fault] with the value that [opt_verbose] has at the time of the
    call: while the command line is parsed the variable is still being
    set. *)
Definition exit_fault_with {errno : errno_h} (verbose : bool) (rc : Z)
  : process_exit :=
  {| out := EmptyString;
     err := if verbose
            then "FAULT: errno = " ++ fmt_d rc ++ nl
            else "FAULT" ++ nl;
     status := EFAULT |}.

(** What one call of [getopt] hands to the loop of [main]: the option
    character it returns and [optarg]. *)
Record getopt_ret : Type := { opt : ascii; optarg : string }.

(** A store into [sys_data].  [struct bpf_syscall_data] is declared in
    bpf.h, which is not among the sources, so the record is kept as the
    stores made into it, the oldest first; the value is the one [strtol]
    returned. *)
Inductive store : Type :=
| Store_sys (v : Z)
| Store_m32 (i : nat) (v : Z)
| Store_m64 (i : nat) (v : Z).

(** The variables the option loop of [main] sets: [opt_file],
    [opt_arg_flag], [opt_machine], [opt_verbose] and [sys_data]. *)
Record cli : Type := {
  cl_file : option string;
  cl_arg_flag : bool;
  cl_machine : Z;
  cl_verbose : bool;
  cl_sys_data : list store
}.

(** The initialisers of the file-scope variables and of the locals of
    [main], and the cleared syscall record. *)
Definition cli_init : cli :=
  {| cl_file := None; cl_arg_flag := false; cl_machine := 32;
     cl_verbose := false; cl_sys_data := [] |}.

(** The options whose case stores a call argument. *)
Definition is_arg_opt (c : ascii) : bool :=
  ((c =? "0") || (c =? "1") || (c =? "2") || (c =? "3") || (c =? "4")
   || (c =? "5"))%char.

(** The width of a store into the argument union, if it is one. *)
Definition store_width (s : store) : option Z :=
  match s with
  | Store_sys _ => None
  | Store_m32 _ _ => Some 32
  | Store_m64 _ _ => Some 64
  end.

(** The options that have a case of their own in the [switch], 'h'
    apart, whose case is that of the default. *)
Definition is_known_opt (c : ascii) : bool :=
  ((c =? "f") || (c =? "m") || (c =? "s") || (c =? "v"))%char || is_arg_opt c.

(** What the option loop keeps true of its variables: the width is 32 or
    64, every argument stored so far went to the view of that width, and
    none was stored while [opt_arg_flag] is down. *)
Definition cli_ok (st : cli) : Prop :=
  (cl_machine st = 32 \/ cl_machine st = 64) /\
  (forall (s : store) (w : Z),
     In s (cl_sys_data st) -> store_width s = Some w -> w = cl_machine st) /\
  (cl_arg_flag st = false ->
   forall s : store, In s (cl_sys_data st) -> store_width s = None).

Section CommandLine.

Context {errno : errno_h}.

(** [strtol(optarg, NULL, 0)] of the C library, and [argv[0]]. *)
Variable strtol : string -> Z.
Variable program : string.

(** [exit_usage]: the usage text on stderr and exit with EINVAL. *)
Definition exit_usage : process_exit :=
  {| out := EmptyString;
     err := "usage: " ++ program ++ " [-m {32,64}] -f <bpf_file> [-v]"
            ++ " -s <syscall_num> [-0 <a0>] ... [-5 <a5>]";
     status := EINVAL |}.

(** The body shared by the cases '0' to '5': raise [opt_arg_flag], then
    store the argument in the view of the union that [opt_machine]
    selects. *)
Definition store_arg (i : nat) (o : getopt_ret) (st : cli)
  : process_exit + cli :=
  if cl_machine st =? 32 then
    inr {| cl_file := cl_file st; cl_arg_flag := true;
           cl_machine := cl_machine st; cl_verbose := cl_verbose st;
           cl_sys_data := (cl_sys_data st
                           ++ [Store_m32 i (strtol (optarg o))])%list |}
  else if cl_machine st =? 64 then
    inr {| cl_file := cl_file st; cl_arg_flag := true;
           cl_machine := cl_machine st; cl_verbose := cl_verbose st;
           cl_sys_data := (cl_sys_data st
                           ++ [Store_m64 i (strtol (optarg o))])%list |}
  else inl (exit_fault_with (cl_verbose st) EINVAL).

(** The [switch] on the option character.  [strdup] is taken to
    succeed. *)
Definition switch_opt (o : getopt_ret) (st : cli) : process_exit + cli :=
  if (opt o =? "f")%char then
    inr {| cl_file := Some (optarg o); cl_arg_flag := cl_arg_flag st;
           cl_machine := cl_machine st; cl_verbose := cl_verbose st;
           cl_sys_data := cl_sys_data st |}
  else if (opt o =? "m")%char then
    if cl_arg_flag st then inl exit_usage
    else
      let machine := u32 (strtol (optarg o)) in
      if negb (machine =? 32) && negb (machine =? 64) then inl exit_usage
      else inr {| cl_file := cl_file st; cl_arg_flag := cl_arg_flag st;
                  cl_machine := machine; cl_verbose := cl_verbose st;
                  cl_sys_data := cl_sys_data st |}
  else if (opt o =? "s")%char then
    inr {| cl_file := cl_file st; cl_arg_flag := cl_arg_flag st;
           cl_machine := cl_machine st; cl_verbose := cl_verbose st;
           cl_sys_data := (cl_sys_data st
                           ++ [Store_sys (strtol (optarg o))])%list |}
  else if (opt o =? "v")%char then
    inr {| cl_file := cl_file st; cl_arg_flag := cl_arg_flag st;
           cl_machine := cl_machine st; cl_verbose := true;
           cl_sys_data := cl_sys_data st |}
  else if (opt o =? "0")%char then store_arg 0 o st
  else if (opt o =? "1")%char then store_arg 1 o st
  else if (opt o =? "2")%char then store_arg 2 o st
  else if (opt o =? "3")%char then store_arg 3 o st
  else if (opt o =? "4")%char then store_arg 4 o st
  else if (opt o =? "5")%char then store_arg 5 o st
  else inl exit_usage.

(** The [while] loop over the options [getopt] returns, in their order,
    until it returns no more: the variables as set, or the exit of the
    first option that ends the process. *)
Fixpoint getopt_loop (opts : list getopt_ret) (st : cli)
  : process_exit + cli :=
  match opts with
  | [] => inr st
  | o :: opts' =>
      match switch_opt o st with
      | inl e => inl e
      | inr st' => getopt_loop opts' st'
      end
  end.

End CommandLine.

Section Simulator.

Context {hdr : bpf_h} {errno : errno_h}.

(** The two file-scope option variables, set by [main] while it parses the
    command line and read-only afterwards. *)
Variable opt_verbose : bool.
Variable opt_machine : Z.

(** [exit_fault]: FAULT on stderr, with the error number in verbose mode,
    and exit with EFAULT. *)
Definition exit_fault (rc : Z) : process_exit :=
  {| out := EmptyString;
     err := if opt_verbose
            then "FAULT: errno = " ++ fmt_d rc ++ nl
            else "FAULT" ++ nl;
     status := EFAULT |}.

(** [exit_error]: ERROR on stderr, with the error number and the line in
    verbose mode, and exit with ENOEXEC. *)
Definition exit_error (rc line : Z) : process_exit :=
  {| out := EmptyString;
     err := if opt_verbose
            then "ERROR: errno = " ++ fmt_d rc ++ ", line = " ++ fmt_d line ++ nl
            else "ERROR" ++ nl;
     status := ENOEXEC |}.

(** A label printed on stdout followed by [exit(0)]. *)
Definition exit_label (label : string) : process_exit :=
  {| out := label; err := EmptyString; status := 0 |}.

(** [end_action]: display the action and exit with 0, or report a domain
    error for a value that is no action. *)
Definition end_action (action line : Z) : process_exit :=
  if action =? 0x00000000 then exit_label "KILL"
  else if action =? 0x00020000 then exit_label "TRAP"
  else if Z.land action 0xffff0000 =? 0x00030000
       then exit_label ("ERRNO(" ++ fmt_u (Z.land action 0x0000ffff) ++ ")")
  else if action =? 0x7fff0000 then exit_label "ALLOW"
  else exit_error EDOM line.

(** The two failure tiers as the process shows them: nothing on stdout,
    the tier's name at the head of stderr, and the tier's exit status. *)
Definition reports_FAULT (e : process_exit) : Prop :=
  out e = EmptyString /\ prefix "FAULT" (err e) = true /\ status e = EFAULT.

Definition reports_ERROR (e : process_exit) : Prop :=
  out e = EmptyString /\ prefix "ERROR" (err e) = true /\ status e = ENOEXEC.

(** The ends the spec names: a decision label, a fault or an error. *)
Definition terminal (e : process_exit) : Prop :=
  (exists label : string, e = exit_label label) \/
  reports_FAULT e \/ reports_ERROR e.

(** ** The execution engine *)

(** [memset(&state, 0, sizeof(state))] with both pointers at 0. *)
Definition sim_init : machine :=
  {| ip := 0; ip_c := 0;
     state := {| acc := 0; temp := repeat 0 BPF_SCRATCH_SIZE |} |}.

(** The case labels of the [switch] of [bpf_execute], in its order. *)
Definition case_labels : list Z :=
  [ BPF_LD + BPF_W + BPF_ABS; BPF_JMP + BPF_JA; BPF_JMP + BPF_JEQ + BPF_K;
    BPF_JMP + BPF_JGT + BPF_K; BPF_JMP + BPF_JGE + BPF_K; BPF_RET + BPF_K ].

Section Execute.

(** The loaded program ([prg->i], with [prg->i_cnt] its length) and the
    syscall record seen through [sys_data_b], byte by byte. *)
Variable prg : list bpf_instr.
Variable sys_data_b : list byte.

(** [state.acc = sys_data_b[bpf->k]], the pointers being [ip'] and [ip_c']
    afterwards. *)
Definition load_abs (ip' ip_c' : Z) (st : sim_state) (off : Z) : step_result :=
  match nth_error sys_data_b (Z.to_nat off) with
  | Some b =>
      Next {| ip := ip'; ip_c := ip_c';
              state := {| acc := Z.of_N (to_N b); temp := temp st |} |}
  | None => Stop NoSemantics
  end.

(** One iteration of [while (ip < prg->i_cnt)], the exit of the loop
    included.  The [switch] is the chain of comparisons with its labels. *)
Definition bpf_step (m : machine) : step_result :=
  if ip m <? Z.of_nat (length prg) then
    let ip_c' := ip m in
    match nth_error prg (Z.to_nat (ip m)) with
    | None => Stop NoSemantics
    | Some bpf =>
        let ip' := u32 (ip m + 1) in
        if op bpf =? BPF_LD + BPF_W + BPF_ABS then
          if (opt_machine =? 32) && (k bpf <? BPF_SYSCALL_MAX_32) then
            load_abs ip' ip_c' (state m) (k bpf)
          else if (opt_machine =? 64) && (k bpf <? BPF_SYSCALL_MAX_64) then
            load_abs ip' ip_c' (state m) (k bpf)
          else Stop (Exits (exit_error ERANGE ip_c'))
        else if op bpf =? BPF_JMP + BPF_JA then
          Next (jump m (k bpf))
        else if op bpf =? BPF_JMP + BPF_JEQ + BPF_K then
          if k bpf =? acc (state m)
          then Next (jump m (jt bpf)) else Next (jump m (jf bpf))
        else if op bpf =? BPF_JMP + BPF_JGT + BPF_K then
          if k bpf >? acc (state m)
          then Next (jump m (jt bpf)) else Next (jump m (jf bpf))
        else if op bpf =? BPF_JMP + BPF_JGE + BPF_K then
          if k bpf >=? acc (state m)
          then Next (jump m (jt bpf)) else Next (jump m (jf bpf))
        else if op bpf =? BPF_RET + BPF_K then
          Stop (Exits (end_action (k bpf) ip_c'))
        else Stop (Exits (exit_fault EOPNOTSUPP))
    end
  else Stop (Exits (exit_error ERANGE (ip_c m))).

(** The loop of [bpf_execute], run for at most [fuel] iterations; [None]
    when the run has not ended by then. *)
Fixpoint bpf_loop (fuel : nat) (m : machine) : option outcome :=
  match fuel with
  | O => None
  | S fuel' =>
      match bpf_step m with
      | Next m' => bpf_loop fuel' m'
      | Stop o => Some o
      end
  end.

(** [bpf_execute]: initialise the machine and run the loop. *)
Definition bpf_execute (fuel : nat) : option outcome := bpf_loop fuel sim_init.

(** The instruction the next iteration fetches, if the loop goes on. *)
Definition fetch (m : machine) : option bpf_instr :=
  if (0 <=? ip m) && (ip m <? Z.of_nat (length prg))
  then nth_error prg (Z.to_nat (ip m)) else None.

(** The machines an execution goes through. *)
Inductive reachable : machine -> Prop :=
| reach_init : reachable sim_init
| reach_step : forall m m', reachable m -> bpf_step m = Next m' -> reachable m'.

End Execute.

(** The maximum valid offset of the selected width. *)
Definition syscall_max : Z :=
  if opt_machine =? 32 then BPF_SYSCALL_MAX_32 else BPF_SYSCALL_MAX_64.

(** The syscall record is at least as long as the valid offsets reach. *)
Definition record_covers (sys_data_b : list byte) : Prop :=
  syscall_max <= Z.of_nat (length sys_data_b).

(** No unconditional jump of the program wraps the 32-bit instruction
    pointer: the jump at index [i] leads to [i + 1 + k]. *)
Definition ja_forward (prg : list bpf_instr) : Prop :=
  forall (i : nat) (bpf : bpf_instr),
    nth_error prg i = Some bpf -> op bpf = BPF_JMP + BPF_JA ->
    Z.of_nat i + 1 + k bpf < 2 ^ 32.

(** The scratch memory of a machine replaced by [t]. *)
Definition set_temp (t : list Z) (m : machine) : machine :=
  {| ip := ip m; ip_c := ip_c m;
     state := {| acc := acc (state m); temp := t |} |}.

Definition set_temp_result (t : list Z) (r : step_result) : step_result :=
  match r with
  | Next m => Next (set_temp t m)
  | Stop o => Stop o
  end.

(** Two syscall records with the same bytes at the offsets below [n]. *)
Definition agree_below (n : Z) (s1 s2 : list byte) : Prop :=
  forall off : Z,
    0 <= off < n ->
    nth_error s1 (Z.to_nat off) = nth_error s2 (Z.to_nat off).


(** ** The program loader of [main] *)

(** The [do ... while] loop that fills [bpf_prg.i]: [i] holds the
    [bpf_prg.i_cnt] instructions read so far.  A read shorter than one
    instruction leaves its bytes in the next free slot, which the count
    does not cover.  [None] when [fuel] iterations were not enough. *)
Fixpoint load_loop (fuel : nat) (fd : list byte) (i : list bpf_instr)
  : option (process_exit + list bpf_instr) :=
  match fuel with
  | O => None
  | S fuel' =>
      let (buf, fd') := read fd (Pos.to_nat sizeof_bpf_instr) in
      let fd_read_len := Z.of_nat (length buf) in
      let i' := if fd_read_len =? Z.pos sizeof_bpf_instr
                then (i ++ [bpf_instr_of_bytes buf])%list else i in
      if Z.of_nat (length i') =? BPF_PRG_MAX_LEN then
        Some (inl (exit_fault E2BIG))
      else if fd_read_len >? 0 then load_loop fuel' fd' i'
      else Some (inr i')
  end.

(** The loader on the bytes of the program file; every iteration but the
    last one consumes at least one byte. *)
Definition load_program (fd : list byte) : option (process_exit + list bpf_instr) :=
  load_loop (S (length fd)) fd [].

(** [main] once the command line is parsed and the file is open: load the
    program, then execute it. *)
Definition main (fuel : nat) (fd sys_data_b : list byte) : option outcome :=
  match load_program fd with
  | None => None
  | Some (inl e) => Some (Exits e)
  | Some (inr prg) => bpf_execute prg sys_data_b fuel
  end.

(** ** Results on the exits and the action decoder *)

Lemma exit_error_reports (rc line : Z) : reports_ERROR (exit_error rc line).
Proof.
  unfold reports_ERROR, exit_error; cbn.
  destruct opt_verbose; repeat split; reflexivity.
Qed.

Lemma exit_fault_reports (rc : Z) : reports_FAULT (exit_fault rc).
Proof.
  unfold reports_FAULT, exit_fault; cbn.
  destruct opt_verbose; repeat split; reflexivity.
Qed.

Lemma reports_ERROR_not_FAULT (e : process_exit) :
  reports_ERROR e -> ~ reports_FAULT e.
Proof.
  intros (_ & He & _) (_ & Hf & _).
  destruct (err e) as [|c s]; [discriminate|].
  destruct c as [[] [] [] [] [] [] [] []]; cbn in He, Hf; discriminate.
Qed.

(** The mask 0xffff0000 keeps the high half of a 32-bit value. *)
Lemma land_high_half (a : Z) :
  0 <= a < 2 ^ 32 -> Z.land a 0xffff0000 = Z.shiftl (Z.shiftr a 16) 16.
Proof.
  intros Ha. apply Z.bits_inj'. intros n Hn.
  rewrite Z.land_spec.
  change 0xffff0000 with (Z.shiftl (Z.ones 16) 16).
  destruct (Z.ltb_spec n 16) as [Hlt|Hge].
  - rewrite !Z.shiftl_spec_low by lia. apply andb_false_r.
  - rewrite !Z.shiftl_spec by lia. rewrite Z.shiftr_spec by lia.
    replace (n - 16 + 16) with n by lia.
    destruct (Z.ltb_spec n 32) as [Hlt|Hge'].
    + rewrite Z.ones_spec_low by lia. apply andb_true_r.
    + rewrite Z.ones_spec_high by lia. rewrite andb_false_r.
      symmetry. destruct (Z.eq_dec a 0) as [->|Hnz].
      * apply Z.bits_0.
      * apply Z.bits_above_log2; [lia|].
        assert (Z.log2 a < 32) by (apply Z.log2_lt_pow2; lia). lia.
Qed.

Lemma high_half_errno (a : Z) :
  0 <= a < 2 ^ 32 -> (Z.land a 0xffff0000 = 0x00030000 <-> Z.shiftr a 16 = 0x0003).
Proof.
  intros Ha. rewrite land_high_half by exact Ha.
  rewrite Z.shiftl_mul_pow2 by lia. change (2 ^ 16) with 65536. lia.
Qed.

(** C1. The action decoder on 32-bit values: 0x00000000 and no other value
    prints KILL, 0x00020000 and no other value prints TRAP, a value whose
    high 16 bits are 0x0003 prints ERRNO(n) with n its low 16 bits,
    0x7fff0000 and no other value prints ALLOW, and every other value is
    the domain error: the ERROR tier, with nothing printed on stdout. *)
Theorem end_action_decodes (action line : Z) :
  0 <= action < 2 ^ 32 ->
  (action = 0x00000000 <-> end_action action line = exit_label "KILL") /\
  (action = 0x00020000 <-> end_action action line = exit_label "TRAP") /\
  (Z.shiftr action 16 = 0x0003 ->
     end_action action line
     = exit_label ("ERRNO(" ++ fmt_u (Z.land action 0x0000ffff) ++ ")")) /\
  (action = 0x7fff0000 <-> end_action action line = exit_label "ALLOW") /\
  (action <> 0x00000000 -> action <> 0x00020000 ->
   Z.shiftr action 16 <> 0x0003 -> action <> 0x7fff0000 ->
     end_action action line = exit_error EDOM line /\
     reports_ERROR (end_action action line) /\
     out (end_action action line) = EmptyString).
Proof.
  intros Ha. pose proof (high_half_errno action Ha) as Hh.
  unfold end_action.
  destruct (Z.eqb_spec action 0x00000000) as [->|H0].
  { cbn. repeat split; intros; try reflexivity; try discriminate; try lia. }
  destruct (Z.eqb_spec action 0x00020000) as [->|H2].
  { cbn. repeat split; intros; try reflexivity; try discriminate; try lia. }
  destruct (Z.eqb_spec (Z.land action 0xffff0000) 0x00030000) as [H3|H3].
  { assert (Hs : Z.shiftr action 16 = 0x0003) by (apply Hh; exact H3).
    assert (action <> 0x7fff0000) by (intros ->; cbn in Hs; discriminate).
    repeat split; intros; try reflexivity; try discriminate; try lia. }
  assert (Hs : Z.shiftr action 16 <> 0x0003) by (rewrite <- Hh; exact H3).
  destruct (Z.eqb_spec action 0x7fff0000) as [->|H7].
  { repeat split; intros; try reflexivity; try discriminate; try lia. }
  pose proof (exit_error_reports EDOM line) as Hr.
  repeat split; intros; try reflexivity; try lia; try apply Hr;
    match goal with
    | H : exit_error _ _ = exit_label _ |- _ =>
        apply (f_equal out) in H; cbn in H; discriminate
    end.
Qed.

(** ** Results on one iteration of the engine *)

Lemma fetch_some (prg : list bpf_instr) (m : machine) (bpf : bpf_instr) :
  fetch prg m = Some bpf ->
  0 <= ip m < Z.of_nat (length prg) /\
  nth_error prg (Z.to_nat (ip m)) = Some bpf.
Proof.
  unfold fetch.
  destruct (Z.leb_spec 0 (ip m)), (Z.ltb_spec (ip m) (Z.of_nat (length prg)));
    cbn; intros Hnth; try discriminate.
  split; [lia | exact Hnth].
Qed.

Lemma fetch_none (prg : list bpf_instr) (m : machine) :
  0 <= ip m -> fetch prg m = None -> Z.of_nat (length prg) <= ip m.
Proof.
  unfold fetch. intros H0.
  destruct (Z.leb_spec 0 (ip m)); [|lia].
  destruct (Z.ltb_spec (ip m) (Z.of_nat (length prg))); cbn; [|lia].
  intros Hn. apply nth_error_None in Hn. lia.
Qed.

(** The labels of the [switch] are pairwise distinct, as C requires. *)
Lemma case_labels_distinct :
  NoDup case_labels ->
  forall i j x y,
    nth_error case_labels i = Some x -> nth_error case_labels j = Some y ->
    i <> j -> x <> y.
Proof.
  intros Hnd i j x y Hi Hj Hij ->.
  apply Hij.
  apply (proj1 (NoDup_nth_error case_labels) Hnd i j).
  - apply nth_error_Some. congruence.
  - congruence.
Qed.

(** Unfold one iteration at a fetched instruction. *)
Ltac at_fetch H :=
  let Hr := fresh "Hrange" in
  let Hn := fresh "Hnth" in
  destruct (fetch_some _ _ _ H) as [Hr Hn];
  unfold bpf_step;
  rewrite (proj2 (Z.ltb_lt _ _) (proj2 Hr)), Hn.

(** Decide the comparison of the opcode with the label of index [j],
    knowing that it is the label of index [i]. *)
Ltac skip_label Hnd Hop i j :=
  rewrite (proj2 (Z.eqb_neq _ _)
             (case_labels_distinct Hnd i j _ _ eq_refl eq_refl ltac:(discriminate)))
    in *.

(** C2. A LOAD-ABS(k) under the selected width: with k below that width's
    maximum valid offset the byte at offset k of the syscall record goes to
    the accumulator and the loop goes on with the next instruction; with k
    at or beyond the maximum the run ends in the ERROR exit with ERANGE,
    whatever the record is and however short, so that no byte of it or past
    it is read. *)
Theorem load_abs_bounded
  (prg : list bpf_instr) (m : machine) (bpf : bpf_instr) :
  opt_machine = 32 \/ opt_machine = 64 ->
  fetch prg m = Some bpf ->
  op bpf = BPF_LD + BPF_W + BPF_ABS ->
  0 <= k bpf ->
  (forall sys_data_b : list byte,
     record_covers sys_data_b -> k bpf < syscall_max ->
     exists b : byte,
       nth_error sys_data_b (Z.to_nat (k bpf)) = Some b /\
       bpf_step prg sys_data_b m
       = Next {| ip := u32 (ip m + 1); ip_c := ip m;
                 state := {| acc := Z.of_N (to_N b);
                             temp := temp (state m) |} |}) /\
  (syscall_max <= k bpf ->
     forall sys_data_b : list byte,
       bpf_step prg sys_data_b m = Stop (Exits (exit_error ERANGE (ip m))) /\
       reports_ERROR (exit_error ERANGE (ip m))).
Proof.
  intros Hm Hf Hop Hk. split.
  - intros sys_data_b Hcov Hlt.
    assert (Hin : (Z.to_nat (k bpf) < length sys_data_b)%nat)
      by (unfold record_covers in Hcov; lia).
    destruct (nth_error sys_data_b (Z.to_nat (k bpf))) as [b|] eqn:Hb;
      [|apply nth_error_None in Hb; lia].
    exists b. split; [reflexivity|].
    at_fetch Hf. rewrite Hop, Z.eqb_refl. unfold load_abs. rewrite Hb.
    unfold syscall_max in Hlt.
    destruct Hm as [-> | ->]; cbn [Z.eqb Pos.eqb andb] in *;
      rewrite (proj2 (Z.ltb_lt _ _) Hlt); reflexivity.
  - intros Hge sys_data_b. split; [|apply exit_error_reports].
    at_fetch Hf. rewrite Hop, Z.eqb_refl.
    unfold syscall_max in Hge.
    destruct Hm as [-> | ->]; cbn [Z.eqb Pos.eqb andb] in *;
      rewrite (proj2 (Z.ltb_ge _ _) Hge); reflexivity.
Qed.

(** C3. A JUMP-GT-K(k,jt,jf): the pointer is advanced by jt when the
    immediate is strictly greater than the accumulator and by jf otherwise;
    with k equal to the accumulator it is jf, with k = 10 and the
    accumulator 5 it is jt.  Nothing else of the machine changes. *)
Theorem jgt_k_immediate_greater
  (prg : list bpf_instr) (sys_data_b : list byte) (m : machine)
  (bpf : bpf_instr) :
  NoDup case_labels ->
  fetch prg m = Some bpf ->
  op bpf = BPF_JMP + BPF_JGT + BPF_K ->
  (k bpf > acc (state m) ->
     bpf_step prg sys_data_b m = Next (jump m (jt bpf))) /\
  (k bpf <= acc (state m) ->
     bpf_step prg sys_data_b m = Next (jump m (jf bpf))) /\
  (k bpf = acc (state m) ->
     bpf_step prg sys_data_b m = Next (jump m (jf bpf))) /\
  (k bpf = 10 -> acc (state m) = 5 ->
     bpf_step prg sys_data_b m = Next (jump m (jt bpf))).
Proof.
  intros Hnd Hf Hop.
  assert (Hstep : bpf_step prg sys_data_b m
                  = if k bpf >? acc (state m)
                    then Next (jump m (jt bpf)) else Next (jump m (jf bpf))).
  { at_fetch Hf. rewrite Hop.
    skip_label Hnd Hop 3%nat 0%nat.
    skip_label Hnd Hop 3%nat 1%nat.
    skip_label Hnd Hop 3%nat 2%nat.
    rewrite Z.eqb_refl. reflexivity. }
  rewrite Hstep. rewrite Z.gtb_ltb.
  repeat split; intros.
  - rewrite (proj2 (Z.ltb_lt _ _)) by lia. reflexivity.
  - rewrite (proj2 (Z.ltb_ge _ _)) by lia. reflexivity.
  - rewrite (proj2 (Z.ltb_ge _ _)) by lia. reflexivity.
  - rewrite (proj2 (Z.ltb_lt _ _)) by lia. reflexivity.
Qed.

(** ** Results on whole executions *)

(** Past the end of the program the loop is left for [exit_error]. *)
Lemma step_past_end (prg : list bpf_instr) (sys_data_b : list byte) (m : machine) :
  Z.of_nat (length prg) <= ip m ->
  bpf_step prg sys_data_b m = Stop (Exits (exit_error ERANGE (ip_c m))).
Proof.
  intros Hge. unfold bpf_step.
  rewrite (proj2 (Z.ltb_ge _ _) Hge). reflexivity.
Qed.

(** What a reachable machine runs to, the execution runs to. *)
Lemma reachable_run (prg : list bpf_instr) (sys_data_b : list byte) (m : machine) :
  reachable prg sys_data_b m ->
  exists n : nat, forall (fuel : nat) (o : outcome),
    bpf_loop prg sys_data_b fuel m = Some o ->
    bpf_execute prg sys_data_b (n + fuel) = Some o.
Proof.
  induction 1 as [|m m' _ [n IH] Hstep].
  - exists O. intros fuel o Hrun. exact Hrun.
  - exists (S n). intros fuel o Hrun.
    replace (S n + fuel)%nat with (n + S fuel)%nat by lia.
    apply IH. cbn [bpf_loop]. rewrite Hstep. exact Hrun.
Qed.

Lemma overrun_exit (prg : list bpf_instr) (sys_data_b : list byte) (m : machine) :
  reachable prg sys_data_b m ->
  Z.of_nat (length prg) <= ip m ->
  exists fuel : nat,
    bpf_execute prg sys_data_b fuel
    = Some (Exits (exit_error ERANGE (ip_c m))).
Proof.
  intros Hreach Hge.
  destruct (reachable_run _ _ _ Hreach) as [n Hn].
  exists (n + 1)%nat. apply Hn. cbn [bpf_loop].
  rewrite step_past_end by exact Hge. reflexivity.
Qed.

(** The pointer of a reachable machine is a 32-bit value. *)
Lemma reachable_ip (prg : list bpf_instr) (sys_data_b : list byte) (m : machine) :
  reachable prg sys_data_b m -> 0 <= ip m < 2 ^ 32.
Proof.
  assert (Hu : forall z, 0 <= u32 z < 2 ^ 32)
    by (intros z; unfold u32; apply Z.mod_pos_bound; lia).
  induction 1 as [|m m' _ IH Hstep]; [cbn; lia|].
  unfold bpf_step, load_abs, jump in Hstep.
  repeat match type of Hstep with
         | context [if ?c then _ else _] => destruct c
         | context [match ?c with _ => _ end] => destruct c
         end;
    inversion Hstep; subst; cbn; apply Hu.
Qed.

(** C4. Whenever an execution arrives with its instruction pointer at or
    beyond the length of the program, no RETURN-K having ended it before,
    it ends in the ERROR exit with ERANGE: ERROR on stderr, the error
    status, and no label on stdout. *)
Theorem overrun_is_range_error
  (prg : list bpf_instr) (sys_data_b : list byte) (m : machine) :
  reachable prg sys_data_b m ->
  Z.of_nat (length prg) <= ip m ->
  exists fuel : nat,
    bpf_execute prg sys_data_b fuel
    = Some (Exits (exit_error ERANGE (ip_c m))) /\
    reports_ERROR (exit_error ERANGE (ip_c m)) /\
    out (exit_error ERANGE (ip_c m)) = EmptyString /\
    forall label : string, exit_error ERANGE (ip_c m) <> exit_label label.
Proof.
  intros Hreach Hge.
  destruct (overrun_exit _ _ _ Hreach Hge) as [fuel Hrun].
  exists fuel. repeat split; try exact Hrun; try apply exit_error_reports.
  intros label Heq. apply (f_equal err) in Heq. cbn in Heq.
  destruct opt_verbose; discriminate.
Qed.

(** C5, as the code has it. An instruction pointer beyond the end of the
    program belongs to the ERROR tier, not to the FAULT tier: the process
    prints ERROR on stderr, followed in verbose mode by ERANGE and the
    index of the last instruction executed, and exits with ENOEXEC. *)
Theorem overrun_reports_error_tier
  (prg : list bpf_instr) (sys_data_b : list byte) (m : machine) :
  reachable prg sys_data_b m ->
  Z.of_nat (length prg) <= ip m ->
  exists (fuel : nat) (e : process_exit),
    bpf_execute prg sys_data_b fuel = Some (Exits e) /\
    out e = EmptyString /\
    err e = (if opt_verbose
             then "ERROR: errno = " ++ fmt_d ERANGE
                  ++ ", line = " ++ fmt_d (ip_c m) ++ nl
             else "ERROR" ++ nl) /\
    status e = ENOEXEC /\
    reports_ERROR e /\ ~ reports_FAULT e.
Proof.
  intros Hreach Hge.
  destruct (overrun_exit _ _ _ Hreach Hge) as [fuel Hrun].
  exists fuel, (exit_error ERANGE (ip_c m)).
  pose proof (exit_error_reports ERANGE (ip_c m)) as Hr.
  repeat split; try exact Hrun; try apply Hr.
  apply reports_ERROR_not_FAULT, Hr.
Qed.

(** An iteration leaves the accumulator alone unless it is a LOAD-ABS,
    which stores one byte of the syscall record. *)
Lemma step_acc (prg : list bpf_instr) (sys_data_b : list byte) (m m' : machine) :
  bpf_step prg sys_data_b m = Next m' ->
  acc (state m') = acc (state m) \/
  exists (bpf : bpf_instr) (b : byte),
    nth_error prg (Z.to_nat (ip m)) = Some bpf /\
    op bpf = BPF_LD + BPF_W + BPF_ABS /\
    nth_error sys_data_b (Z.to_nat (k bpf)) = Some b /\
    acc (state m') = Z.of_N (to_N b).
Proof.
  unfold bpf_step. intros Hstep.
  destruct (ip m <? Z.of_nat (length prg)); [|discriminate].
  destruct (nth_error prg (Z.to_nat (ip m))) as [bpf|]; [|discriminate].
  destruct (Z.eqb_spec (op bpf) (BPF_LD + BPF_W + BPF_ABS)) as [Hop|_].
  - right. exists bpf. unfold load_abs in Hstep.
    destruct (nth_error sys_data_b (Z.to_nat (k bpf))) as [b|] eqn:Hb.
    + exists b.
      repeat match type of Hstep with
             | context [if ?c then _ else _] => destruct c
             end; inversion Hstep; subst; cbn; auto.
    + repeat match type of Hstep with
             | context [if ?c then _ else _] => destruct c
             end; discriminate.
  - left. unfold jump in Hstep.
    repeat match type of Hstep with
           | context [if ?c then _ else _] => destruct c
           end; inversion Hstep; subst; reflexivity.
Qed.

Lemma reachable_acc (prg : list bpf_instr) (sys_data_b : list byte) (m : machine) :
  reachable prg sys_data_b m -> 0 <= acc (state m) <= 255.
Proof.
  induction 1 as [|m m' _ IH Hstep]; [cbn; lia|].
  destruct (step_acc _ _ _ _ Hstep) as [-> | (bpf & b & _ & _ & _ & ->)];
    [exact IH|].
  pose proof (to_N_bounded b). lia.
Qed.

(** C9. The accumulator of every machine an execution goes through is at
    most 255: it is 0 at the start, an iteration changes it only by a
    LOAD-ABS, and that stores one byte of the syscall record.  So a
    JUMP-EQ-K with k > 255 always takes jf, and a JUMP-GT-K or JUMP-GE-K
    with k > 255 always takes jt, whatever was loaded. *)
Theorem accumulator_is_a_byte
  (prg : list bpf_instr) (sys_data_b : list byte) (m : machine) :
  reachable prg sys_data_b m ->
  0 <= acc (state m) <= 255 /\
  acc (state sim_init) = 0 /\
  (forall m' : machine,
     bpf_step prg sys_data_b m = Next m' ->
     acc (state m') = acc (state m) \/
     exists (bpf : bpf_instr) (b : byte),
       nth_error prg (Z.to_nat (ip m)) = Some bpf /\
       op bpf = BPF_LD + BPF_W + BPF_ABS /\
       nth_error sys_data_b (Z.to_nat (k bpf)) = Some b /\
       acc (state m') = Z.of_N (to_N b)) /\
  (forall bpf : bpf_instr,
     NoDup case_labels -> fetch prg m = Some bpf -> 255 < k bpf ->
     (op bpf = BPF_JMP + BPF_JEQ + BPF_K ->
        bpf_step prg sys_data_b m = Next (jump m (jf bpf))) /\
     (op bpf = BPF_JMP + BPF_JGT + BPF_K ->
        bpf_step prg sys_data_b m = Next (jump m (jt bpf))) /\
     (op bpf = BPF_JMP + BPF_JGE + BPF_K ->
        bpf_step prg sys_data_b m = Next (jump m (jt bpf)))).
Proof.
  intros Hreach. pose proof (reachable_acc _ _ _ Hreach) as Hacc.
  split; [exact Hacc|]. split; [reflexivity|].
  split; [intros m'; apply step_acc|].
  intros bpf Hnd Hf Hk. repeat split; intros Hop; at_fetch Hf; rewrite Hop.
  - skip_label Hnd Hop 2%nat 0%nat.
    skip_label Hnd Hop 2%nat 1%nat.
    rewrite Z.eqb_refl, (proj2 (Z.eqb_neq _ _)) by lia. reflexivity.
  - skip_label Hnd Hop 3%nat 0%nat.
    skip_label Hnd Hop 3%nat 1%nat.
    skip_label Hnd Hop 3%nat 2%nat.
    rewrite Z.eqb_refl, Z.gtb_ltb, (proj2 (Z.ltb_lt _ _)) by lia. reflexivity.
  - skip_label Hnd Hop 4%nat 0%nat.
    skip_label Hnd Hop 4%nat 1%nat.
    skip_label Hnd Hop 4%nat 2%nat.
    skip_label Hnd Hop 4%nat 3%nat.
    rewrite Z.eqb_refl, Z.geb_leb, (proj2 (Z.leb_le _ _)) by lia. reflexivity.
Qed.

(** An iteration does not write the scratch memory. *)
Lemma step_temp (prg : list bpf_instr) (sys_data_b : list byte) (m m' : machine) :
  bpf_step prg sys_data_b m = Next m' -> temp (state m') = temp (state m).
Proof.
  unfold bpf_step, load_abs, jump. intros Hstep.
  repeat match type of Hstep with
         | context [if ?c then _ else _] => destruct c
         | context [match ?c with _ => _ end] => destruct c
         end;
    inversion Hstep; subst; reflexivity.
Qed.

(** An iteration does not read the scratch memory: with other contents it
    does the same, and hands the other contents on. *)
Lemma step_set_temp
  (prg : list bpf_instr) (sys_data_b : list byte) (t : list Z) (m : machine) :
  bpf_step prg sys_data_b (set_temp t m)
  = set_temp_result t (bpf_step prg sys_data_b m).
Proof.
  unfold bpf_step, load_abs, jump, set_temp. cbn [ip ip_c state acc temp].
  repeat match goal with
         | |- context [if ?c then _ else _] => destruct c
         | |- context [match ?c with _ => _ end] => destruct c
         end;
    reflexivity.
Qed.

(** C10. The scratch memory is all zero when the machine is initialised,
    no iteration of the engine writes it or reads it, whatever instruction
    it executes, and so it is all zero in every machine an execution goes
    through. *)
Theorem scratch_memory_untouched
  (prg : list bpf_instr) (sys_data_b : list byte) :
  temp (state sim_init) = repeat 0 BPF_SCRATCH_SIZE /\
  (forall m m' : machine,
     bpf_step prg sys_data_b m = Next m' ->
     temp (state m') = temp (state m)) /\
  (forall (t : list Z) (m : machine),
     bpf_step prg sys_data_b (set_temp t m)
     = set_temp_result t (bpf_step prg sys_data_b m)) /\
  (forall m : machine,
     reachable prg sys_data_b m ->
     temp (state m) = repeat 0 BPF_SCRATCH_SIZE /\
     Forall (fun w => w = 0) (temp (state m))).
Proof.
  split; [reflexivity|]. split; [apply step_temp|].
  split; [apply step_set_temp|].
  assert (Hz : forall m, reachable prg sys_data_b m ->
                         temp (state m) = repeat 0 BPF_SCRATCH_SIZE).
  { induction 1 as [|m m' _ IH Hstep]; [reflexivity|].
    rewrite (step_temp _ _ _ _ Hstep). exact IH. }
  intros m Hreach. split; [apply Hz, Hreach|].
  rewrite (Hz m Hreach). apply Forall_forall.
  intros w Hw. apply repeat_spec in Hw. exact Hw.
Qed.

(** ** Termination *)

Lemma end_action_terminal (action line : Z) : terminal (end_action action line).
Proof.
  unfold end_action, terminal.
  repeat match goal with
         | |- context [if ?c then _ else _] => destruct c
         end;
    try (left; eexists; reflexivity).
  right; right. apply exit_error_reports.
Qed.

Lemma instr_wf_bounds (i : bpf_instr) :
  instr_wf i = true ->
  0 <= op i < 2 ^ 16 /\ 0 <= jt i < 2 ^ 8 /\ 0 <= jf i < 2 ^ 8 /\
  0 <= k i < 2 ^ 32.
Proof.
  unfold instr_wf. rewrite !andb_true_iff.
  rewrite !Z.leb_le, !Z.ltb_lt. lia.
Qed.

Section Forward.

Variable prg : list bpf_instr.
Variable sys_data_b : list byte.

Hypothesis prg_wf : Forall (fun i => instr_wf i = true) prg.
Hypothesis prg_len : Z.of_nat (length prg) <= BPF_PRG_MAX_LEN.
Hypothesis prg_forward : ja_forward prg.
Hypothesis sys_covers : record_covers sys_data_b.

(** An iteration of a forward program ends the run in one of the named
    ends or moves the pointer up. *)
Lemma step_progress (m : machine) :
  0 <= ip m ->
  match bpf_step prg sys_data_b m with
  | Next m' => ip m < ip m'
  | Stop (Exits e) => terminal e
  | Stop NoSemantics => False
  end.
Proof.
  intros Hip. unfold bpf_step.
  destruct (Z.ltb_spec (ip m) (Z.of_nat (length prg))) as [Hlt|Hge];
    [|right; right; apply exit_error_reports].
  destruct (nth_error prg (Z.to_nat (ip m))) as [bpf|] eqn:Hnth;
    [|apply nth_error_None in Hnth; lia].
  assert (Hwf : instr_wf bpf = true).
  { apply nth_error_In in Hnth.
    exact (proj1 (Forall_forall _ prg) prg_wf bpf Hnth). }
  apply instr_wf_bounds in Hwf. destruct Hwf as (_ & Hjt & Hjf & Hk).
  unfold BPF_PRG_MAX_LEN in prg_len.
  assert (Hbump : u32 (ip m + 1) = ip m + 1)
    by (unfold u32; apply Z.mod_small; lia).
  assert (Hjump : forall d, 0 <= d -> ip m + 1 + d < 2 ^ 32 ->
                            ip m < ip (jump m d)).
  { intros d Hd Hw. unfold jump. cbn [ip]. rewrite Hbump.
    unfold u32. rewrite Z.mod_small by lia. lia. }
  assert (Hload : forall off, 0 <= off < syscall_max ->
            match load_abs sys_data_b (u32 (ip m + 1)) (ip m) (state m) off with
            | Next m' => ip m < ip m'
            | Stop (Exits e) => terminal e
            | Stop NoSemantics => False
            end).
  { intros off Hoff. unfold load_abs.
    destruct (nth_error sys_data_b (Z.to_nat off)) eqn:Hb.
    - cbn [ip]. rewrite Hbump. lia.
    - apply nth_error_None in Hb. unfold record_covers in sys_covers. lia. }
  destruct (Z.eqb_spec (op bpf) (BPF_LD + BPF_W + BPF_ABS)) as [_|_].
  { unfold syscall_max in Hload.
    destruct (Z.eqb_spec opt_machine 32) as [E32|N32]; cbn [andb].
    - destruct (Z.ltb_spec (k bpf) BPF_SYSCALL_MAX_32); [apply Hload; lia|].
      rewrite E32. cbn [Z.eqb Pos.eqb andb].
      right; right; apply exit_error_reports.
    - destruct (Z.eqb_spec opt_machine 64); cbn [andb];
        [|right; right; apply exit_error_reports].
      destruct (Z.ltb_spec (k bpf) BPF_SYSCALL_MAX_64); [apply Hload; lia|].
      right; right; apply exit_error_reports. }
  destruct (Z.eqb_spec (op bpf) (BPF_JMP + BPF_JA)) as [Hja|_].
  { apply Hjump; [lia|].
    pose proof (prg_forward (Z.to_nat (ip m)) bpf Hnth Hja). lia. }
  destruct (op bpf =? BPF_JMP + BPF_JEQ + BPF_K).
  { destruct (k bpf =? acc (state m)); apply Hjump; lia. }
  destruct (op bpf =? BPF_JMP + BPF_JGT + BPF_K).
  { destruct (k bpf >? acc (state m)); apply Hjump; lia. }
  destruct (op bpf =? BPF_JMP + BPF_JGE + BPF_K).
  { destruct (k bpf >=? acc (state m)); apply Hjump; lia. }
  destruct (op bpf =? BPF_RET + BPF_K); [apply end_action_terminal|].
  right; left. apply exit_fault_reports.
Qed.

Lemma loop_terminates (n : nat) :
  forall m : machine,
    0 <= ip m -> Z.of_nat (length prg) - ip m <= Z.of_nat n ->
    exists e : process_exit,
      bpf_loop prg sys_data_b (S n) m = Some (Exits e) /\ terminal e.
Proof.
  induction n as [|n IH]; intros m Hip Hdist.
  - exists (exit_error ERANGE (ip_c m)). cbn [bpf_loop].
    rewrite step_past_end by lia.
    split; [reflexivity | right; right; apply exit_error_reports].
  - pose proof (step_progress m Hip) as Hstep.
    change (bpf_loop prg sys_data_b (S (S n)) m)
      with (match bpf_step prg sys_data_b m with
            | Next m' => bpf_loop prg sys_data_b (S n) m'
            | Stop o => Some o
            end).
    destruct (bpf_step prg sys_data_b m) as [m'|[e|]].
    + apply IH; lia.
    + exists e. split; [reflexivity | exact Hstep].
    + contradiction.
Qed.

End Forward.

(** C8, as the code has it. An execution ends within as many iterations as
    the program has instructions, plus the one that leaves the loop, in a
    decision label, a FAULT or an ERROR, provided that no JUMP-ALWAYS of
    the program wraps the 32-bit instruction pointer (index + 1 + k below
    2^32), the program is within the capacity of the loader and the
    syscall record covers the valid offsets.  A JUMP-ALWAYS with k = 0 is
    such a forward jump: it goes on with the next instruction. *)
Theorem forward_programs_terminate
  (prg : list bpf_instr) (sys_data_b : list byte) :
  Forall (fun i => instr_wf i = true) prg ->
  Z.of_nat (length prg) <= BPF_PRG_MAX_LEN ->
  ja_forward prg ->
  record_covers sys_data_b ->
  exists e : process_exit,
    bpf_execute prg sys_data_b (S (length prg)) = Some (Exits e) /\
    terminal e.
Proof.
  intros Hwf Hlen Hfwd Hcov. unfold bpf_execute.
  apply (loop_terminates prg sys_data_b Hwf Hlen Hfwd Hcov); cbn [ip sim_init]; lia.
Qed.

(** ** Results on the loader *)

(** An iteration that finds a whole instruction record in the file. *)
Lemma load_loop_record (fuel : nat) (fd : list byte) (i : list bpf_instr) :
  (Pos.to_nat sizeof_bpf_instr <= length fd)%nat ->
  load_loop (S fuel) fd i
  = if Z.of_nat (length i) + 1 =? BPF_PRG_MAX_LEN
    then Some (inl (exit_fault E2BIG))
    else load_loop fuel (skipn (Pos.to_nat sizeof_bpf_instr) fd)
           (i ++ [bpf_instr_of_bytes
                    (firstn (Pos.to_nat sizeof_bpf_instr) fd)])%list.
Proof.
  intros Hlen. cbn [load_loop read].
  rewrite length_firstn, Nat.min_l by exact Hlen.
  rewrite positive_nat_Z, Z.eqb_refl.
  rewrite length_app. cbn [length]. rewrite Nat2Z.inj_add. cbn [Z.of_nat Pos.of_succ_nat].
  destruct (Z.of_nat (length i) + 1 =? BPF_PRG_MAX_LEN); reflexivity.
Qed.

(** An iteration at the end of the file: the loop is left. *)
Lemma load_loop_eof (fuel : nat) (i : list bpf_instr) :
  Z.of_nat (length i) <> BPF_PRG_MAX_LEN ->
  load_loop (S fuel) [] i = Some (inr i).
Proof.
  intros Hcnt. cbn [load_loop read].
  rewrite firstn_nil, skipn_nil. cbn [length Z.of_nat].
  rewrite (proj2 (Z.eqb_neq 0 (Z.pos sizeof_bpf_instr))) by lia.
  rewrite (proj2 (Z.eqb_neq _ _) Hcnt). reflexivity.
Qed.

(** An iteration that finds less than an instruction record: the bytes
    are not counted, and the loop ends on the next read if not on this
    one. *)
Lemma load_loop_short (fuel : nat) (fd : list byte) (i : list bpf_instr) :
  (length fd < Pos.to_nat sizeof_bpf_instr)%nat ->
  Z.of_nat (length i) <> BPF_PRG_MAX_LEN ->
  (length fd = 0 \/ 0 < fuel)%nat ->
  load_loop (S fuel) fd i = Some (inr i).
Proof.
  intros Hlen Hcnt Hfuel.
  destruct fd as [|b fd]; [apply load_loop_eof, Hcnt|].
  destruct Hfuel as [Hf|Hf]; [discriminate|].
  destruct fuel as [|fuel]; [lia|].
  rewrite <- (load_loop_eof fuel i Hcnt).
  cbn [load_loop read].
  pose proof (positive_nat_Z sizeof_bpf_instr) as Hsz.
  rewrite length_firstn, Nat.min_r by lia.
  rewrite (proj2 (Z.eqb_neq (Z.of_nat (length (b :: fd)))
                    (Z.pos sizeof_bpf_instr))) by lia.
  rewrite (proj2 (Z.eqb_neq _ _) Hcnt).
  rewrite skipn_all2 by lia.
  rewrite firstn_nil, skipn_nil.
  cbn [length Z.of_nat Z.gtb Z.compare]. reflexivity.
Qed.

(** The number of whole records in what follows a whole record. *)
Lemma records_after (len sz : Z) :
  0 < sz -> sz <= len ->
  (len - sz) / sz = len / sz - 1 /\ 0 <= (len - sz) / sz.
Proof.
  intros Hsz Hlen. split; [|apply Z.div_pos; lia].
  replace (len - sz) with (len + (-1) * sz) by lia.
  rewrite Z.div_add by lia. lia.
Qed.

(** Below the capacity the loader returns one instruction for each whole
    record of the file. *)
Lemma load_loop_count (fuel : nat) :
  forall (fd : list byte) (i : list bpf_instr),
    (length fd < fuel)%nat ->
    Z.of_nat (length i) + Z.of_nat (length fd) / Z.pos sizeof_bpf_instr
      < BPF_PRG_MAX_LEN ->
    exists prg : list bpf_instr,
      load_loop fuel fd i = Some (inr prg) /\
      Z.of_nat (length prg)
      = Z.of_nat (length i) + Z.of_nat (length fd) / Z.pos sizeof_bpf_instr.
Proof.
  induction fuel as [|fuel IH]; intros fd i Hfuel Hcap; [lia|].
  assert (Hq : 0 <= Z.of_nat (length fd) / Z.pos sizeof_bpf_instr)
    by (apply Z.div_pos; lia).
  destruct (Nat.le_gt_cases (Pos.to_nat sizeof_bpf_instr) (length fd))
    as [Hrec|Hshort].
  - rewrite load_loop_record by exact Hrec.
    assert (Hafter : (Z.of_nat (length fd) - Z.pos sizeof_bpf_instr)
                       / Z.pos sizeof_bpf_instr
                     = Z.of_nat (length fd) / Z.pos sizeof_bpf_instr - 1 /\
                     0 <= (Z.of_nat (length fd) - Z.pos sizeof_bpf_instr)
                          / Z.pos sizeof_bpf_instr)
      by (apply records_after; lia).
    rewrite (proj2 (Z.eqb_neq _ _)) by lia.
    destruct (IH (skipn (Pos.to_nat sizeof_bpf_instr) fd)
                (i ++ [bpf_instr_of_bytes
                         (firstn (Pos.to_nat sizeof_bpf_instr) fd)])%list)
      as (prg & Hprg & Hcnt).
    + rewrite length_skipn. lia.
    + rewrite length_skipn, length_app. cbn [length].
      replace (Z.of_nat (length fd - Pos.to_nat sizeof_bpf_instr))
        with (Z.of_nat (length fd) - Z.pos sizeof_bpf_instr) by lia.
      lia.
    + exists prg. split; [exact Hprg|]. rewrite Hcnt.
      rewrite length_skipn, length_app. cbn [length].
      replace (Z.of_nat (length fd - Pos.to_nat sizeof_bpf_instr))
        with (Z.of_nat (length fd) - Z.pos sizeof_bpf_instr) by lia.
      lia.
  - exists i. rewrite Z.div_small in * by lia.
    split; [|lia]. apply load_loop_short; lia.
Qed.

(** At the capacity the loader faults: the fault is raised as soon as the
    count reaches [BPF_PRG_MAX_LEN]. *)
Lemma load_loop_full (fuel : nat) :
  forall (fd : list byte) (i : list bpf_instr),
    (length fd < fuel)%nat ->
    Z.of_nat (length i) < BPF_PRG_MAX_LEN ->
    BPF_PRG_MAX_LEN
      <= Z.of_nat (length i) + Z.of_nat (length fd) / Z.pos sizeof_bpf_instr ->
    load_loop fuel fd i = Some (inl (exit_fault E2BIG)).
Proof.
  induction fuel as [|fuel IH]; intros fd i Hfuel Hcnt Hcap; [lia|].
  destruct (Nat.le_gt_cases (Pos.to_nat sizeof_bpf_instr) (length fd))
    as [Hrec|Hshort].
  - rewrite load_loop_record by exact Hrec.
    assert (Hafter : (Z.of_nat (length fd) - Z.pos sizeof_bpf_instr)
                       / Z.pos sizeof_bpf_instr
                     = Z.of_nat (length fd) / Z.pos sizeof_bpf_instr - 1 /\
                     0 <= (Z.of_nat (length fd) - Z.pos sizeof_bpf_instr)
                          / Z.pos sizeof_bpf_instr)
      by (apply records_after; lia).
    destruct (Z.eqb_spec (Z.of_nat (length i) + 1) BPF_PRG_MAX_LEN) as [_|Hne];
      [reflexivity|].
    apply IH.
    + rewrite length_skipn. lia.
    + rewrite length_app. cbn [length]. lia.
    + rewrite length_skipn, length_app. cbn [length].
      replace (Z.of_nat (length fd - Pos.to_nat sizeof_bpf_instr))
        with (Z.of_nat (length fd) - Z.pos sizeof_bpf_instr) by lia.
      lia.
  - rewrite Z.div_small in Hcap by lia. lia.
Qed.

Lemma load_program_full (fd : list byte) :
  BPF_PRG_MAX_LEN <= Z.of_nat (length fd) / Z.pos sizeof_bpf_instr ->
  load_program fd = Some (inl (exit_fault E2BIG)).
Proof.
  intros Hcap. apply load_loop_full; cbn [length Z.of_nat];
    unfold BPF_PRG_MAX_LEN in *; lia.
Qed.

Lemma load_program_count (fd : list byte) :
  Z.of_nat (length fd) / Z.pos sizeof_bpf_instr < BPF_PRG_MAX_LEN ->
  exists prg : list bpf_instr,
    load_program fd = Some (inr prg) /\
    Z.of_nat (length prg) = Z.of_nat (length fd) / Z.pos sizeof_bpf_instr.
Proof.
  intros Hcap.
  destruct (load_loop_count (S (length fd)) fd []) as (prg & Hprg & Hcnt);
    [lia | cbn [length Z.of_nat]; lia |].
  exists prg. split; [exact Hprg | exact Hcnt].
Qed.

(** The fuel of [load_program] is enough: the loader always returns. *)
Lemma load_program_total (fd : list byte) : load_program fd <> None.
Proof.
  destruct (Z.lt_ge_cases (Z.of_nat (length fd) / Z.pos sizeof_bpf_instr)
              BPF_PRG_MAX_LEN) as [Hlt|Hge].
  - destruct (load_program_count fd Hlt) as (prg & -> & _). discriminate.
  - rewrite (load_program_full fd Hge). discriminate.
Qed.

(** Bytes that follow the last whole record and do not make a record
    change nothing in what the loader does. *)
Lemma load_loop_tail (n : nat) :
  forall (fuel fuel' : nat) (fd tail : list byte) (i : list bpf_instr),
    length fd = (n * Pos.to_nat sizeof_bpf_instr)%nat ->
    (length tail < Pos.to_nat sizeof_bpf_instr)%nat ->
    (length fd < fuel)%nat ->
    (length fd + length tail < fuel')%nat ->
    Z.of_nat (length i) < BPF_PRG_MAX_LEN ->
    load_loop fuel' (fd ++ tail) i = load_loop fuel fd i.
Proof.
  induction n as [|n IH]; intros fuel fuel' fd tail i Hfd Htail Hfuel Hfuel' Hcnt.
  - destruct fd; [|discriminate]. cbn [app length] in *.
    destruct fuel as [|fuel]; [lia|]. destruct fuel' as [|fuel']; [lia|].
    rewrite load_loop_eof by lia. apply load_loop_short; lia.
  - cbn [Nat.mul] in Hfd.
    destruct fuel as [|fuel]; [lia|]. destruct fuel' as [|fuel']; [lia|].
    rewrite !load_loop_record by (try rewrite length_app; lia).
    destruct (Z.eqb_spec (Z.of_nat (length i) + 1) BPF_PRG_MAX_LEN) as [_|Hne];
      [reflexivity|].
    rewrite firstn_app, skipn_app.
    replace (Pos.to_nat sizeof_bpf_instr - length fd)%nat with O by lia.
    cbn [firstn skipn]. rewrite app_nil_r.
    apply IH.
    + rewrite length_skipn. lia.
    + exact Htail.
    + rewrite length_skipn. lia.
    + rewrite length_skipn. lia.
    + rewrite length_app. cbn [length]. lia.
Qed.

(** C7, as the code has it. For a file with fewer whole instruction
    records than the capacity of the loader, the number of instructions
    loaded is the length of the file divided by the size of a record, and
    no error or fault is raised; the bytes of a final partial record are
    dropped: the program loaded is the one loaded from the file without
    them. *)
Theorem partial_record_dropped (fd : list byte) :
  Z.of_nat (length fd) / Z.pos sizeof_bpf_instr < BPF_PRG_MAX_LEN ->
  exists prg : list bpf_instr,
    load_program fd = Some (inr prg) /\
    Z.of_nat (length prg) = Z.of_nat (length fd) / Z.pos sizeof_bpf_instr /\
    forall whole tail : list byte,
      fd = (whole ++ tail)%list ->
      (length whole mod Pos.to_nat sizeof_bpf_instr = 0)%nat ->
      (length tail < Pos.to_nat sizeof_bpf_instr)%nat ->
      load_program whole = Some (inr prg).
Proof.
  intros Hcap. destruct (load_program_count fd Hcap) as (prg & Hprg & Hcnt).
  exists prg. split; [exact Hprg|]. split; [exact Hcnt|].
  intros whole tail -> Hmod Htail. rewrite <- Hprg. symmetry.
  unfold load_program.
  apply (load_loop_tail (length whole / Pos.to_nat sizeof_bpf_instr)).
  - apply Nat.Div0.div_exact in Hmod. lia.
  - exact Htail.
  - lia.
  - rewrite length_app. lia.
  - cbn [length Z.of_nat]. unfold BPF_PRG_MAX_LEN. lia.
Qed.

(** ** More on the instructions of the engine *)

(** JUMP-EQ-K takes jt exactly when the immediate equals the accumulator,
    JUMP-GE-K exactly when the immediate is at least the accumulator: as
    for JUMP-GT-K it is the immediate that is compared with the
    accumulator, not the reverse. *)
Theorem jeq_jge_compare_immediate
  (prg : list bpf_instr) (sys_data_b : list byte) (m : machine)
  (bpf : bpf_instr) :
  NoDup case_labels ->
  fetch prg m = Some bpf ->
  (op bpf = BPF_JMP + BPF_JEQ + BPF_K ->
     (k bpf = acc (state m) ->
        bpf_step prg sys_data_b m = Next (jump m (jt bpf))) /\
     (k bpf <> acc (state m) ->
        bpf_step prg sys_data_b m = Next (jump m (jf bpf)))) /\
  (op bpf = BPF_JMP + BPF_JGE + BPF_K ->
     (acc (state m) <= k bpf ->
        bpf_step prg sys_data_b m = Next (jump m (jt bpf))) /\
     (k bpf < acc (state m) ->
        bpf_step prg sys_data_b m = Next (jump m (jf bpf)))).
Proof.
  intros Hnd Hf. split; intros Hop.
  - assert (Hstep : bpf_step prg sys_data_b m
                    = if k bpf =? acc (state m)
                      then Next (jump m (jt bpf)) else Next (jump m (jf bpf))).
    { at_fetch Hf. rewrite Hop.
      skip_label Hnd Hop 2%nat 0%nat.
      skip_label Hnd Hop 2%nat 1%nat.
      rewrite Z.eqb_refl. reflexivity. }
    rewrite Hstep. split; intros Hk.
    + rewrite (proj2 (Z.eqb_eq _ _) Hk). reflexivity.
    + rewrite (proj2 (Z.eqb_neq _ _) Hk). reflexivity.
  - assert (Hstep : bpf_step prg sys_data_b m
                    = if k bpf >=? acc (state m)
                      then Next (jump m (jt bpf)) else Next (jump m (jf bpf))).
    { at_fetch Hf. rewrite Hop.
      skip_label Hnd Hop 4%nat 0%nat.
      skip_label Hnd Hop 4%nat 1%nat.
      skip_label Hnd Hop 4%nat 2%nat.
      skip_label Hnd Hop 4%nat 3%nat.
      rewrite Z.eqb_refl. reflexivity. }
    rewrite Hstep, Z.geb_leb. split; intros Hk.
    + rewrite (proj2 (Z.leb_le _ _) Hk). reflexivity.
    + rewrite (proj2 (Z.leb_gt _ _) Hk). reflexivity.
Qed.

(** JUMP-ALWAYS(k) is relative to the instruction that follows it and
    wraps at 32 bits: from index i the pointer goes to (i + 1 + k) mod
    2^32, the accumulator and the scratch memory staying as they are.  With
    k = 0 that is the next instruction. *)
Theorem ja_relative_to_next
  (prg : list bpf_instr) (sys_data_b : list byte) (m : machine)
  (bpf : bpf_instr) :
  NoDup case_labels ->
  fetch prg m = Some bpf ->
  op bpf = BPF_JMP + BPF_JA ->
  exists m' : machine,
    bpf_step prg sys_data_b m = Next m' /\
    ip m' = (ip m + 1 + k bpf) mod 2 ^ 32 /\
    ip_c m' = ip m /\ state m' = state m /\
    (k bpf = 0 -> ip m + 1 < 2 ^ 32 -> ip m' = ip m + 1).
Proof.
  intros Hnd Hf Hop. exists (jump m (k bpf)).
  assert (Hip : ip (jump m (k bpf)) = (ip m + 1 + k bpf) mod 2 ^ 32).
  { unfold jump, u32. cbn [ip]. apply Z.add_mod_idemp_l. lia. }
  split; [|split; [exact Hip|split; [reflexivity|split; [reflexivity|]]]].
  - at_fetch Hf. rewrite Hop.
    skip_label Hnd Hop 1%nat 0%nat.
    rewrite Z.eqb_refl. reflexivity.
  - intros Hk Hlt. rewrite Hip, Hk, Z.add_0_r.
    apply Z.mod_small. destruct (fetch_some _ _ _ Hf) as [Hr _]. lia.
Qed.

(** An iteration that ends the run of a reachable machine ends the
    execution. *)
Lemma reachable_stop
  (prg : list bpf_instr) (sys_data_b : list byte) (m : machine) (o : outcome) :
  reachable prg sys_data_b m ->
  bpf_step prg sys_data_b m = Stop o ->
  exists fuel : nat, bpf_execute prg sys_data_b fuel = Some o.
Proof.
  intros Hreach Hstep. destruct (reachable_run _ _ _ Hreach) as [n Hn].
  exists (n + 1)%nat. apply Hn. cbn [bpf_loop]. rewrite Hstep. reflexivity.
Qed.

(** A RETURN-K(k) that an execution arrives at ends it with the exit of
    [end_action] on k and the index of the instruction: neither the
    accumulator nor the syscall record has a say. *)
Theorem ret_k_ends_with_action
  (prg : list bpf_instr) (sys_data_b : list byte) (m : machine)
  (bpf : bpf_instr) :
  NoDup case_labels ->
  reachable prg sys_data_b m ->
  fetch prg m = Some bpf ->
  op bpf = BPF_RET + BPF_K ->
  exists fuel : nat,
    bpf_execute prg sys_data_b fuel
    = Some (Exits (end_action (k bpf) (ip m))).
Proof.
  intros Hnd Hreach Hf Hop. apply (reachable_stop _ _ m); [exact Hreach|].
  at_fetch Hf. rewrite Hop.
  skip_label Hnd Hop 5%nat 0%nat.
  skip_label Hnd Hop 5%nat 1%nat.
  skip_label Hnd Hop 5%nat 2%nat.
  skip_label Hnd Hop 5%nat 3%nat.
  skip_label Hnd Hop 5%nat 4%nat.
  rewrite Z.eqb_refl. reflexivity.
Qed.

(** An instruction whose opcode is none of the six case labels ends the
    execution that arrives at it in the FAULT exit with EOPNOTSUPP. *)
Theorem unsupported_opcode_faults_run
  (prg : list bpf_instr) (sys_data_b : list byte) (m : machine)
  (bpf : bpf_instr) :
  reachable prg sys_data_b m ->
  fetch prg m = Some bpf ->
  ~ In (op bpf) case_labels ->
  exists fuel : nat,
    bpf_execute prg sys_data_b fuel = Some (Exits (exit_fault EOPNOTSUPP)) /\
    reports_FAULT (exit_fault EOPNOTSUPP).
Proof.
  intros Hreach Hf Hop.
  destruct (reachable_stop prg sys_data_b m (Exits (exit_fault EOPNOTSUPP)) Hreach)
    as [fuel Hrun].
  - at_fetch Hf. unfold case_labels in Hop. cbn [In] in Hop.
    repeat match goal with
           | |- context [op bpf =? ?l] =>
               rewrite (proj2 (Z.eqb_neq (op bpf) l))
                 by (intros Heq; apply Hop; rewrite Heq; auto 10)
           end.
    reflexivity.
  - exists fuel. split; [exact Hrun | apply exit_fault_reports].
Qed.

(** ** Safety and the exits of whole executions *)






(** What [end_action] prints tells the action. *)
Lemma end_action_label_inv (action line : Z) :
  (out (end_action action line) = "KILL" -> action = 0x00000000) /\
  (out (end_action action line) = "TRAP" -> action = 0x00020000) /\
  (out (end_action action line) = "ALLOW" -> action = 0x7fff0000).
Proof.
  unfold end_action.
  destruct (Z.eqb_spec action 0x00000000);
    [repeat split; intros; try assumption; discriminate|].
  destruct (Z.eqb_spec action 0x00020000);
    [repeat split; intros; try assumption; discriminate|].
  destruct (Z.land action 0xffff0000 =? 0x00030000);
    [cbn; repeat split; intros; discriminate|].
  destruct (Z.eqb_spec action 0x7fff0000);
    [repeat split; intros; try assumption; discriminate|].
  cbn. repeat split; intros; discriminate.
Qed.

(** An iteration that ends the run with something on stdout executed a
    RETURN-K of the program. *)
Lemma step_label_from_return
  (prg : list bpf_instr) (sys_data_b : list byte) (m : machine)
  (e : process_exit) :
  bpf_step prg sys_data_b m = Stop (Exits e) ->
  out e <> EmptyString ->
  exists bpf : bpf_instr,
    In bpf prg /\ op bpf = BPF_RET + BPF_K /\ e = end_action (k bpf) (ip m).
Proof.
  unfold bpf_step, load_abs. intros Hstep Hout.
  destruct (ip m <? Z.of_nat (length prg));
    [|inversion Hstep; subst; contradiction Hout; reflexivity].
  destruct (nth_error prg (Z.to_nat (ip m))) as [bpf|] eqn:Hnth; [|discriminate].
  exists bpf. split; [eapply nth_error_In; exact Hnth|].
  repeat match type of Hstep with
         | context [op bpf =? ?l] => destruct (Z.eqb_spec (op bpf) l)
         | context [if ?c then _ else _] => destruct c
         | context [match ?c with _ => _ end] => destruct c
         end;
    try discriminate;
    inversion Hstep; subst;
    try (contradiction Hout; reflexivity);
    split; [assumption | reflexivity].
Qed.

(** The simulator prints on stdout only through a RETURN-K of the program,
    and prints KILL, TRAP or ALLOW only if the program holds a RETURN-K
    whose immediate is exactly 0x00000000, 0x00020000 or 0x7fff0000. *)
Theorem label_comes_from_return
  (prg : list bpf_instr) (sys_data_b : list byte) (fuel : nat)
  (e : process_exit) :
  bpf_execute prg sys_data_b fuel = Some (Exits e) ->
  out e <> EmptyString ->
  exists (bpf : bpf_instr) (line : Z),
    In bpf prg /\ op bpf = BPF_RET + BPF_K /\
    e = end_action (k bpf) line /\
    (out e = "KILL" -> k bpf = 0x00000000) /\
    (out e = "TRAP" -> k bpf = 0x00020000) /\
    (out e = "ALLOW" -> k bpf = 0x7fff0000).
Proof.
  unfold bpf_execute. generalize sim_init.
  induction fuel as [|fuel IH]; intros m Hrun Hout; [discriminate|].
  cbn [bpf_loop] in Hrun.
  destruct (bpf_step prg sys_data_b m) as [m'|o] eqn:Hstep;
    [exact (IH m' Hrun Hout)|].
  inversion Hrun; subst.
  destruct (step_label_from_return _ _ _ _ Hstep Hout) as (bpf & Hin & Hop & ->).
  exists bpf, (ip m).
  split; [exact Hin|]. split; [exact Hop|]. split; [reflexivity|].
  apply end_action_label_inv.
Qed.

(** An iteration looks at the syscall record only below the maximum valid
    offset. *)
Lemma step_agree
  (prg : list bpf_instr) (s1 s2 : list byte) (m : machine) :
  Forall (fun i => instr_wf i = true) prg ->
  agree_below syscall_max s1 s2 ->
  bpf_step prg s1 m = bpf_step prg s2 m.
Proof.
  intros Hwf Hagree. unfold bpf_step.
  destruct (ip m <? Z.of_nat (length prg)); [|reflexivity].
  destruct (nth_error prg (Z.to_nat (ip m))) as [bpf|] eqn:Hnth; [|reflexivity].
  assert (Hk : 0 <= k bpf < 2 ^ 32).
  { apply nth_error_In in Hnth.
    apply (proj1 (Forall_forall _ prg) Hwf), instr_wf_bounds in Hnth. tauto. }
  destruct (op bpf =? BPF_LD + BPF_W + BPF_ABS); [|reflexivity].
  assert (Hload : k bpf < syscall_max ->
            load_abs s1 (u32 (ip m + 1)) (ip m) (state m) (k bpf)
            = load_abs s2 (u32 (ip m + 1)) (ip m) (state m) (k bpf)).
  { intros Hlt. unfold load_abs. rewrite (Hagree (k bpf)) by lia. reflexivity. }
  unfold syscall_max in Hload.
  destruct (Z.eqb_spec opt_machine 32) as [E32|N32]; cbn [andb].
  - destruct (Z.ltb_spec (k bpf) BPF_SYSCALL_MAX_32); [apply Hload; lia|].
    rewrite E32. cbn [Z.eqb Pos.eqb andb]. reflexivity.
  - destruct (opt_machine =? 64); cbn [andb]; [|reflexivity].
    destruct (Z.ltb_spec (k bpf) BPF_SYSCALL_MAX_64); [apply Hload; lia|].
    reflexivity.
Qed.

(** Two syscall records that agree on the bytes below the maximum valid
    offset of the selected width give the same execution, step for step:
    what lies at or beyond that offset is never looked at. *)
Theorem record_beyond_max_ignored
  (prg : list bpf_instr) (s1 s2 : list byte) (fuel : nat) :
  Forall (fun i => instr_wf i = true) prg ->
  agree_below syscall_max s1 s2 ->
  bpf_execute prg s1 fuel = bpf_execute prg s2 fuel.
Proof.
  intros Hwf Hagree. unfold bpf_execute. generalize sim_init.
  induction fuel as [|fuel IH]; intros m; [reflexivity|].
  cbn [bpf_loop]. rewrite (step_agree prg s1 s2 m Hwf Hagree).
  destruct (bpf_step prg s2 m); [apply IH | reflexivity].
Qed.

(** The line that [exit_error] and [end_action] are given is the index of
    an instruction of the program: in every machine an execution of a
    program that is not empty goes through, [ip_c] is below the length of
    the program. *)
Theorem line_is_an_instruction
  (prg : list bpf_instr) (sys_data_b : list byte) (m : machine) :
  prg <> [] ->
  reachable prg sys_data_b m ->
  0 <= ip_c m < Z.of_nat (length prg).
Proof.
  intros Hne Hreach. induction Hreach as [|m m' Hreach IH Hstep].
  - cbn [ip_c sim_init]. destruct prg; [contradiction|]. cbn [length]. lia.
  - pose proof (reachable_ip _ _ _ Hreach) as Hip.
    unfold bpf_step, load_abs, jump in Hstep.
    destruct (Z.ltb_spec (ip m) (Z.of_nat (length prg))); [|discriminate].
    repeat match type of Hstep with
           | context [if ?c then _ else _] => destruct c
           | context [match ?c with _ => _ end] => destruct c
           end;
      inversion Hstep; subst; cbn [ip_c]; lia.
Qed.

(** ** More on the loader *)


(** The loop of the loader on a file made of whole records. *)
Lemma load_loop_records (recs : list (list byte)) :
  Forall (fun r => length r = Pos.to_nat sizeof_bpf_instr) recs ->
  forall (fuel : nat) (i : list bpf_instr),
    (length (concat recs) < fuel)%nat ->
    Z.of_nat (length i) + Z.of_nat (length recs) < BPF_PRG_MAX_LEN ->
    load_loop fuel (concat recs) i
    = Some (inr (i ++ map bpf_instr_of_bytes recs)%list).
Proof.
  induction 1 as [|r recs Hr _ IH]; intros fuel i Hfuel Hcap;
    (destruct fuel as [|fuel]; [lia|]).
  - cbn [concat map]. rewrite app_nil_r. apply load_loop_eof. lia.
  - cbn [concat map length] in *. rewrite length_app in Hfuel.
    rewrite load_loop_record by (rewrite length_app; lia).
    rewrite (proj2 (Z.eqb_neq _ _)) by lia.
    rewrite firstn_app, skipn_app, Hr, Nat.sub_diag.
    rewrite firstn_all2, skipn_all2 by lia.
    cbn [firstn skipn app]. rewrite app_nil_r.
    rewrite IH.
    + rewrite <- app_assoc. reflexivity.
    + lia.
    + rewrite length_app. cbn [length]. lia.
Qed.

(** A file made of fewer than [BPF_PRG_MAX_LEN] whole records loads as the
    instructions of its records, in the order of the file, and [main] then
    is the execution of that program. *)
Theorem loader_decodes_records
  (recs : list (list byte)) (sys_data_b : list byte) (fuel : nat) :
  Forall (fun r => length r = Pos.to_nat sizeof_bpf_instr) recs ->
  Z.of_nat (length recs) < BPF_PRG_MAX_LEN ->
  load_program (concat recs) = Some (inr (map bpf_instr_of_bytes recs)) /\
  main fuel (concat recs) sys_data_b
  = bpf_execute (map bpf_instr_of_bytes recs) sys_data_b fuel.
Proof.
  intros Hrecs Hcap.
  assert (Hload : load_program (concat recs)
                  = Some (inr (map bpf_instr_of_bytes recs))).
  { unfold load_program.
    rewrite (load_loop_records recs Hrecs) by (cbn [length Z.of_nat]; lia).
    reflexivity. }
  split; [exact Hload|]. unfold main. rewrite Hload. reflexivity.
Qed.

End Simulator.

(** ** The verbose flag *)

Section Verbose.

Context {hdr : bpf_h} {errno : errno_h}.

Variable opt_machine : Z.

Lemma end_action_verbose (action line : Z) :
  decision (Exits (end_action true action line))
  = decision (Exits (end_action false action line)).
Proof.
  unfold end_action.
  repeat match goal with
         | |- context [if ?c then _ else _] => destruct c
         end; reflexivity.
Qed.

Lemma step_verbose (prg : list bpf_instr) (sys_data_b : list byte) (m : machine) :
  same_decision (bpf_step true opt_machine prg sys_data_b m)
                (bpf_step false opt_machine prg sys_data_b m).
Proof.
  unfold bpf_step, load_abs.
  repeat match goal with
         | |- context [if ?c then _ else _] => destruct c
         | |- context [match ?c with _ => _ end] => destruct c
         end;
    cbn [same_decision]; try reflexivity.
  apply end_action_verbose.
Qed.

Lemma load_loop_verbose (fuel : nat) :
  forall (fd : list byte) (i : list bpf_instr),
    match load_loop true fuel fd i, load_loop false fuel fd i with
    | None, None => True
    | Some (inr p1), Some (inr p2) => p1 = p2
    | Some (inl e1), Some (inl e2) =>
        decision (Exits e1) = decision (Exits e2)
    | _, _ => False
    end.
Proof.
  induction fuel as [|fuel IH]; intros fd i; [exact I|].
  cbn [load_loop read].
  repeat match goal with
         | |- context [Z.eqb ?a ?b] => destruct (Z.eqb a b)
         | |- context [Z.gtb ?a ?b] => destruct (Z.gtb a b)
         end;
    try reflexivity; apply IH.
Qed.

(** The verbose flag changes nothing but the text on stderr: with and
    without it [main] ends, or does not end, after the same number of
    iterations, with the same text on stdout and the same exit status. *)
Theorem verbose_changes_stderr_only
  (fuel : nat) (fd sys_data_b : list byte) :
  option_map decision (main true opt_machine fuel fd sys_data_b)
  = option_map decision (main false opt_machine fuel fd sys_data_b).
Proof.
  unfold main, load_program.
  pose proof (load_loop_verbose (S (length fd)) fd []) as Hload.
  destruct (load_loop true (S (length fd)) fd []) as [[e1|p1]|],
           (load_loop false (S (length fd)) fd []) as [[e2|p2]|];
    try contradiction; try reflexivity.
  - cbn [option_map]. f_equal. exact Hload.
  - subst p2. unfold bpf_execute. generalize sim_init.
    induction fuel as [|fuel IH]; intros m; [reflexivity|].
    cbn [bpf_loop]. pose proof (step_verbose p1 sys_data_b m) as Hstep.
    destruct (bpf_step true opt_machine p1 sys_data_b m) as [m1|o1],
             (bpf_step false opt_machine p1 sys_data_b m) as [m2|o2];
      cbn [same_decision] in Hstep; try contradiction.
    + subst m2. apply IH.
    + cbn [option_map]. f_equal. exact Hstep.
Qed.

End Verbose.

(** ** The option loop of [main] *)

Section CommandLineResults.

Context {errno : errno_h}.

Variable strtol : string -> Z.
Variable program : string.

(** One option: the loop goes on with its invariant, or the process
    exits with the usage text. *)
Lemma switch_opt_ok (o : getopt_ret) (st : cli) :
  cli_ok st ->
  match switch_opt strtol program o st with
  | inl e => e = exit_usage program
  | inr st' =>
      cli_ok st' /\
      (cl_arg_flag st = true -> cl_arg_flag st' = true) /\
      (is_arg_opt (opt o) = true -> cl_arg_flag st' = true) /\
      (opt o = "m"%char -> cl_arg_flag st = false) /\
      is_known_opt (opt o) = true
  end.
Proof.
  intros (Hm & Hw & Hf). unfold switch_opt, store_arg, is_known_opt, is_arg_opt.
  assert (Happ : forall (s0 s : store) (w : Z),
            store_width s0 = Some (cl_machine st) ->
            In s (cl_sys_data st ++ [s0]) -> store_width s = Some w ->
            w = cl_machine st).
  { intros s0 s w Hs0 Hin Hsw. apply in_app_or in Hin.
    destruct Hin as [Hin|[<-|[]]]; [exact (Hw s w Hin Hsw) | congruence]. }
  repeat match goal with
         | |- context [Ascii.eqb (opt o) ?c] =>
             destruct (Ascii.eqb_spec (opt o) c) as [?Heq|?Hne]
         end;
    cbn [orb];
    try (destruct (cl_arg_flag st) eqn:Hflag; [reflexivity|]);
    try (destruct (Z.eqb_spec (u32 (strtol (optarg o))) 32) as [E32|N32];
         destruct (Z.eqb_spec (u32 (strtol (optarg o))) 64) as [E64|N64];
         cbn [negb andb]);
    try (destruct (Z.eqb_spec (cl_machine st) 32) as [M32|M32];
         [|destruct (Z.eqb_spec (cl_machine st) 64) as [M64|M64]; [|lia]]);
    try reflexivity;
    unfold cli_ok; cbn [cl_file cl_arg_flag cl_machine cl_verbose cl_sys_data];
    repeat split; auto; try congruence; try discriminate;
    try (intros s w Hin Hsw; rewrite (Hf eq_refl s Hin) in Hsw; discriminate);
    try (intros s w; apply Happ; cbn; congruence);
    try (intros s w Hin Hsw; apply in_app_or in Hin;
         destruct Hin as [Hin|[<-|[]]]; [exact (Hw s w Hin Hsw) | discriminate]);
    try (intros Hfl s Hin; apply in_app_or in Hin;
         destruct Hin as [Hin|[<-|[]]]; [exact (Hf Hfl s Hin) | reflexivity]).
Qed.

Lemma cli_init_ok : cli_ok cli_init.
Proof.
  unfold cli_ok, cli_init. cbn. repeat split; auto; intros; contradiction.
Qed.

(** The loop from a state that satisfies the invariant. *)
Lemma getopt_loop_ok (opts : list getopt_ret) :
  forall st : cli,
    cli_ok st ->
    match getopt_loop strtol program opts st with
    | inl e => e = exit_usage program
    | inr st' =>
        cli_ok st' /\
        (cl_arg_flag st = true -> cl_arg_flag st' = true) /\
        Forall (fun o => is_known_opt (opt o) = true) opts
    end.
Proof.
  induction opts as [|o opts IH]; intros st Hok; cbn [getopt_loop].
  - split; [exact Hok | split; [auto | constructor]].
  - pose proof (switch_opt_ok o st Hok) as Hsw.
    destruct (switch_opt strtol program o st) as [e|st1]; [exact Hsw|].
    destruct Hsw as (Hok1 & Hfl1 & _ & _ & Hknown).
    pose proof (IH st1 Hok1) as Hrest.
    destruct (getopt_loop strtol program opts st1) as [e|st2]; [exact Hrest|].
    destruct Hrest as (Hok2 & Hfl2 & Hall).
    split; [exact Hok2 | split; [auto | constructor; assumption]].
Qed.

(** The option loop ends the process in one way only, the usage exit: the
    EINVAL fault of the argument cases is never raised.  When the loop
    lets [main] go on, every option was one of f, m, s, v, 0 ... 5, and
    [opt_machine] is 32 or 64. *)
Theorem getopt_loop_usage_or_valid (opts : list getopt_ret) :
  match getopt_loop strtol program opts cli_init with
  | inl e => e = exit_usage program
  | inr st =>
      (cl_machine st = 32 \/ cl_machine st = 64) /\
      Forall (fun o => is_known_opt (opt o) = true) opts
  end.
Proof.
  pose proof (getopt_loop_ok opts cli_init cli_init_ok) as Hloop.
  destruct (getopt_loop strtol program opts cli_init) as [e|st]; [exact Hloop|].
  destruct Hloop as ((Hm & _) & _ & Hall). split; [exact Hm | exact Hall].
Qed.

(** All the call arguments of one command line are stored in the same
    view of the argument union, that of the final [opt_machine]. *)
Theorem args_stored_in_one_width
  (opts : list getopt_ret) (st : cli) (s : store) (w : Z) :
  getopt_loop strtol program opts cli_init = inr st ->
  In s (cl_sys_data st) ->
  store_width s = Some w ->
  w = cl_machine st.
Proof.
  intros Hrun. pose proof (getopt_loop_ok opts cli_init cli_init_ok) as Hloop.
  rewrite Hrun in Hloop. destruct Hloop as ((_ & Hw & _) & _). apply Hw.
Qed.

Lemma getopt_loop_app (pre post : list getopt_ret) :
  forall st st' : cli,
    getopt_loop strtol program (pre ++ post) st = inr st' ->
    exists st1 : cli,
      getopt_loop strtol program pre st = inr st1 /\
      getopt_loop strtol program post st1 = inr st'.
Proof.
  induction pre as [|o pre IH]; intros st st' Hrun; cbn [app getopt_loop] in *.
  - exists st. split; [reflexivity | exact Hrun].
  - destruct (switch_opt strtol program o st) as [e|st0]; [discriminate|].
    exact (IH st0 st' Hrun).
Qed.

(** Once an argument option went through, [opt_arg_flag] is up. *)
Lemma getopt_loop_flag (pre : list getopt_ret) :
  forall st st1 : cli,
    cli_ok st ->
    getopt_loop strtol program pre st = inr st1 ->
    cli_ok st1 /\
    (cl_arg_flag st = true \/ Exists (fun a => is_arg_opt (opt a) = true) pre ->
     cl_arg_flag st1 = true).
Proof.
  induction pre as [|o pre IH]; intros st st1 Hok Hrun; cbn [getopt_loop] in Hrun.
  - inversion Hrun; subst. split; [exact Hok|].
    intros [Hfl|Hex]; [exact Hfl | inversion Hex].
  - pose proof (switch_opt_ok o st Hok) as Hsw.
    destruct (switch_opt strtol program o st) as [e|st0]; [discriminate|].
    destruct Hsw as (Hok0 & Hfl0 & Harg0 & _).
    destruct (IH st0 st1 Hok0 Hrun) as [Hok1 Hfl1]. split; [exact Hok1|].
    intros [Hfl|Hex]; apply Hfl1.
    + left. exact (Hfl0 Hfl).
    + inversion Hex; subst; [left; exact (Harg0 H0) | right; assumption].
Qed.

(** The width comes before the arguments: a command line with an -m after
    one of -0 ... -5 is not accepted, it ends in the usage exit. *)
Theorem machine_after_argument_is_usage
  (pre post : list getopt_ret) (o : getopt_ret) :
  opt o = "m"%char ->
  Exists (fun a => is_arg_opt (opt a) = true) pre ->
  getopt_loop strtol program (pre ++ o :: post) cli_init
  = inl (exit_usage program).
Proof.
  intros Hm Hex.
  pose proof (getopt_loop_ok (pre ++ o :: post) cli_init cli_init_ok) as Hloop.
  destruct (getopt_loop strtol program (pre ++ o :: post) cli_init)
    as [e|st] eqn:Hrun; [rewrite Hloop; reflexivity|].
  exfalso.
  destruct (getopt_loop_app pre (o :: post) _ _ Hrun) as (st1 & Hpre & Hpost).
  destruct (getopt_loop_flag pre cli_init st1 cli_init_ok Hpre) as [Hok1 Hfl1].
  cbn [getopt_loop] in Hpost.
  pose proof (switch_opt_ok o st1 Hok1) as Hsw.
  destruct (switch_opt strtol program o st1) as [e|st2]; [discriminate|].
  destruct Hsw as (_ & _ & _ & Hdown & _).
  rewrite (Hfl1 (or_intror Hex)) in Hdown. specialize (Hdown Hm). discriminate.
Qed.

End CommandLineResults.

(** ** The simulator on a concrete host

    The statements above hold for every bpf.h and errno.h; here they are
    applied on the host of [linux_bpf_h] and [linux_errno_h]. *)

#[local] Existing Instance linux_bpf_h.
#[local] Existing Instance linux_errno_h.

Lemma linux_case_labels : NoDup case_labels.
Proof.
  unfold case_labels. cbn.
  repeat (constructor; [cbn; intuition discriminate|]). constructor.
Qed.

(** The engine on a few programs of the spec's list of properties. *)
Example ret_allow_alone (verbose : bool) (sys_data_b : list byte) :
  bpf_execute verbose 32 [linux_ret_k 0x7fff0000] sys_data_b 1
  = Some (Exits (exit_label "ALLOW")).
Proof. reflexivity. Qed.

Example load_then_ret_allow (b : byte) :
  bpf_execute false 32 [linux_ld_abs 0; linux_ret_k 0x7fff0000]
    (b :: repeat x00 27) 2
  = Some (Exits (exit_label "ALLOW")).
Proof. reflexivity. Qed.

Example ja_zero_falls_through :
  bpf_execute false 32 [linux_ja 0; linux_ret_k 0x00030001] [] 2
  = Some (Exits (exit_label "ERRNO(1)")).
Proof. reflexivity. Qed.

Example unsupported_opcode_faults :
  bpf_execute false 32 [{| op := 0x07; jt := 0; jf := 0; k := 0 |}] [] 1
  = Some (Exits {| out := EmptyString; err := "FAULT" ++ nl; status := 14 |}).
Proof. reflexivity. Qed.

Example undecodable_return_errors :
  bpf_execute true 32 [linux_ja 1; linux_ret_k 0; linux_ret_k 0x00010000] [] 2
  = Some (Exits {| out := EmptyString;
                   err := "ERROR: errno = 33, line = 2" ++ nl;
                   status := 8 |}).
Proof. reflexivity. Qed.

Lemma ret_allow_file_length (n : nat) :
  length (ret_allow_file n) = (n * 8)%nat.
Proof.
  unfold ret_allow_file. induction n as [|n IH]; [reflexivity|].
  cbn [repeat concat]. rewrite length_app, IH. reflexivity.
Qed.

Lemma end_action_decodes_witness :
  0 <= 0x0003002a < 2 ^ 32 /\
  end_action false 0x0003002a 7 = exit_label "ERRNO(42)" /\
  end_action false 0x00010000 7 = exit_error false EDOM 7.
Proof.
  split; [lia|]. split.
  - apply (end_action_decodes false 0x0003002a 7); [lia | reflexivity].
  - apply (end_action_decodes false 0x00010000 7); [lia | | | |]; discriminate.
Defined.

Lemma load_abs_bounded_witness :
  let prg := [linux_ld_abs 4; linux_ret_k 0x7fff0000] in
  let sys := ([x01; x00; x00; x00; x2a] ++ repeat x00 23)%list in
  (forall sys_data_b : list byte,
     record_covers 32 sys_data_b -> 4 < syscall_max 32 ->
     exists b : byte,
       nth_error sys_data_b (Z.to_nat 4) = Some b /\
       bpf_step false 32 prg sys_data_b sim_init
       = Next {| ip := u32 (0 + 1); ip_c := 0;
                 state := {| acc := Z.of_N (to_N b);
                             temp := temp (state sim_init) |} |}) /\
  bpf_step false 32 prg sys sim_init
  = Next {| ip := 1; ip_c := 0;
            state := {| acc := 42; temp := repeat 0 6 |} |} /\
  bpf_step false 32 [linux_ld_abs 28] sys sim_init
  = Stop (Exits (exit_error false ERANGE 0)).
Proof.
  intros prg sys.
  pose proof (load_abs_bounded false 32 prg sim_init (linux_ld_abs 4)
                (or_introl eq_refl) eq_refl eq_refl ltac:(cbn; lia)) as [Hin _].
  pose proof (load_abs_bounded false 32 [linux_ld_abs 28] sim_init
                (linux_ld_abs 28)
                (or_introl eq_refl) eq_refl eq_refl ltac:(cbn; lia)) as [_ Hout].
  split; [exact Hin|]. split; [reflexivity|].
  apply Hout. cbn. lia.
Defined.

Lemma jgt_k_immediate_greater_witness :
  let prg := [linux_jgt_k 10 2 0; linux_jgt_k 5 2 0] in
  let at0 := {| ip := 0; ip_c := 0; state := {| acc := 5; temp := repeat 0 6 |} |} in
  let at1 := {| ip := 1; ip_c := 0; state := {| acc := 5; temp := repeat 0 6 |} |} in
  NoDup case_labels /\
  bpf_step false 32 prg [] at0 = Next (jump at0 2) /\
  ip (jump at0 2) = 3 /\
  bpf_step false 32 prg [] at1 = Next (jump at1 0) /\
  ip (jump at1 0) = 2.
Proof.
  intros prg at0 at1. split; [exact linux_case_labels|].
  destruct (jgt_k_immediate_greater false 32 prg [] at0 (linux_jgt_k 10 2 0)
              linux_case_labels eq_refl eq_refl) as (_ & _ & _ & H10).
  destruct (jgt_k_immediate_greater false 32 prg [] at1 (linux_jgt_k 5 2 0)
              linux_case_labels eq_refl eq_refl) as (_ & _ & Heq & _).
  split; [apply H10; reflexivity|]. split; [reflexivity|].
  split; [apply Heq; reflexivity | reflexivity].
Defined.

(** The machine of the program [JUMP-ALWAYS(0)] after its one
    instruction: the pointer is past the end. *)
Lemma ja_zero_reaches_end :
  reachable false 32 [linux_ja 0] []
    {| ip := 1; ip_c := 0; state := {| acc := 0; temp := repeat 0 6 |} |}.
Proof.
  apply (reach_step false 32 [linux_ja 0] [] sim_init); [apply reach_init|].
  reflexivity.
Qed.

Lemma overrun_is_range_error_witness :
  let m := {| ip := 1; ip_c := 0; state := {| acc := 0; temp := repeat 0 6 |} |} in
  reachable false 32 [linux_ja 0] [] m /\
  Z.of_nat (length [linux_ja 0]) <= ip m /\
  exists fuel : nat,
    bpf_execute false 32 [linux_ja 0] [] fuel
    = Some (Exits (exit_error false ERANGE 0)) /\
    reports_ERROR (exit_error false ERANGE 0) /\
    out (exit_error false ERANGE 0) = EmptyString /\
    forall label : string, exit_error false ERANGE 0 <> exit_label label.
Proof.
  intros m. split; [exact ja_zero_reaches_end|]. split; [cbn; lia|].
  apply (overrun_is_range_error false 32 [linux_ja 0] [] m);
    [exact ja_zero_reaches_end | cbn; lia].
Defined.

(** C5 fails on the code: the program [JUMP-ALWAYS(0)] runs its pointer
    past the end, and the process prints ERROR and exits with ENOEXEC, which
    is not the FAULT tier. *)
Lemma overrun_is_not_a_fault :
  let m := {| ip := 1; ip_c := 0; state := {| acc := 0; temp := repeat 0 6 |} |} in
  let e := {| out := EmptyString; err := "ERROR" ++ nl; status := 8 |} in
  reachable false 32 [linux_ja 0] [] m /\
  Z.of_nat (length [linux_ja 0]) <= ip m /\
  bpf_execute false 32 [linux_ja 0] [] 2 = Some (Exits e) /\
  ~ reports_FAULT e /\
  status e <> EFAULT.
Proof.
  intros m e. split; [exact ja_zero_reaches_end|]. split; [cbn; lia|].
  split; [reflexivity|]. split.
  - intros (_ & Hf & _). discriminate Hf.
  - cbn. discriminate.
Qed.

Lemma overrun_reports_error_tier_witness :
  let m := {| ip := 1; ip_c := 0; state := {| acc := 0; temp := repeat 0 6 |} |} in
  reachable true 32 [linux_ja 0] [] m /\
  Z.of_nat (length [linux_ja 0]) <= ip m /\
  exists (fuel : nat) (e : process_exit),
    bpf_execute true 32 [linux_ja 0] [] fuel = Some (Exits e) /\
    out e = EmptyString /\
    err e = "ERROR: errno = 34, line = 0" ++ nl /\
    status e = 8 /\
    reports_ERROR e /\ ~ reports_FAULT e.
Proof.
  intros m.
  assert (Hreach : reachable true 32 [linux_ja 0] [] m).
  { apply (reach_step true 32 [linux_ja 0] [] sim_init); [apply reach_init|].
    reflexivity. }
  split; [exact Hreach|]. split; [cbn; lia|].
  exact (overrun_reports_error_tier true 32 [linux_ja 0] [] m Hreach
           ltac:(cbn; lia)).
Defined.

(** The number of whole records of a file of [n] records and a few more
    bytes. *)
Lemma ret_allow_file_records (n : nat) (tail : list byte) :
  (length tail < 8)%nat ->
  Z.of_nat (length (ret_allow_file n ++ tail)) / Z.pos sizeof_bpf_instr
  = Z.of_nat n.
Proof.
  intros Htail. rewrite length_app, ret_allow_file_length.
  rewrite Nat2Z.inj_add, Nat2Z.inj_mul.
  change (Z.pos sizeof_bpf_instr) with 8. change (Z.of_nat 8) with 8.
  rewrite Z.add_comm, Z.div_add by lia.
  rewrite Z.div_small by lia. reflexivity.
Qed.

(** Below the capacity such a file loads as [n] times RETURN-K(0x7fff0000). *)
Lemma ret_allow_file_loads (n : nat) :
  forall (fuel : nat) (i : list bpf_instr),
    (n * 8 < fuel)%nat ->
    Z.of_nat (length i) + Z.of_nat n < BPF_PRG_MAX_LEN ->
    load_loop false fuel (ret_allow_file n) i
    = Some (inr (i ++ repeat (linux_ret_k 0x7fff0000) n)%list).
Proof.
  induction n as [|n IH]; intros fuel i Hfuel Hcap;
    (destruct fuel as [|fuel]; [lia|]).
  - cbn [repeat]. rewrite app_nil_r. apply load_loop_eof. lia.
  - rewrite load_loop_record
      by (rewrite ret_allow_file_length; change (Pos.to_nat sizeof_bpf_instr) with 8%nat; lia).
    rewrite (proj2 (Z.eqb_neq _ _)) by lia.
    change (ret_allow_file (S n)) with (ret_allow_record ++ ret_allow_file n)%list.
    change (Pos.to_nat sizeof_bpf_instr) with 8%nat.
    change (firstn 8 (ret_allow_record ++ ret_allow_file n)) with ret_allow_record.
    change (skipn 8 (ret_allow_record ++ ret_allow_file n)%list)
      with (ret_allow_file n).
    change (bpf_instr_of_bytes ret_allow_record) with (linux_ret_k 0x7fff0000).
    rewrite IH.
    + rewrite <- app_assoc. reflexivity.
    + lia.
    + rewrite length_app. cbn [length]. lia.
Qed.

(** A file of 4095 records loads, and its first RETURN-K(0x7fff0000) ends
    the run with ALLOW. *)
Lemma load_4095_records_runs (sys_data_b : list byte) :
  load_program false (ret_allow_file 4095)
  = Some (inr (repeat (linux_ret_k 0x7fff0000) 4095)) /\
  main false 32 1 (ret_allow_file 4095) sys_data_b
  = Some (Exits (exit_label "ALLOW")).
Proof.
  assert (Hload : load_program false (ret_allow_file 4095)
                  = Some (inr (repeat (linux_ret_k 0x7fff0000) 4095))).
  { unfold load_program.
    rewrite (ret_allow_file_loads 4095 _ [])
      by (try rewrite ret_allow_file_length; cbn [length Z.of_nat];
          unfold BPF_PRG_MAX_LEN; lia).
    reflexivity. }
  split; [exact Hload|].
  unfold main. rewrite Hload. reflexivity.
Qed.

(** C6, the code on a file of exactly 4096 whole records, each of them a
    RETURN-K(0x7fff0000): the loader raises the FAULT with E2BIG as soon as
    it has counted the 4096th record, and the program is never executed.
    The claim has such a file load with a count of 4096. *)
Theorem load_4096_records_faults :
  Z.of_nat (length (ret_allow_file 4096)) / Z.pos sizeof_bpf_instr = 4096 /\
  load_program false (ret_allow_file 4096)
  = Some (inl (exit_fault false E2BIG)) /\
  (forall (fuel : nat) (sys_data_b : list byte),
     main false 32 fuel (ret_allow_file 4096) sys_data_b
     = Some (Exits (exit_fault false E2BIG))) /\
  reports_FAULT (exit_fault false E2BIG).
Proof.
  assert (Hrec : Z.of_nat (length (ret_allow_file 4096))
                 / Z.pos sizeof_bpf_instr = 4096).
  { rewrite <- (app_nil_r (ret_allow_file 4096)).
    rewrite ret_allow_file_records by (cbn; lia). reflexivity. }
  assert (Hload : load_program false (ret_allow_file 4096)
                  = Some (inl (exit_fault false E2BIG))).
  { apply load_program_full. rewrite Hrec. unfold BPF_PRG_MAX_LEN. lia. }
  split; [exact Hrec|]. split; [exact Hload|]. split.
  - intros fuel sys_data_b. unfold main. rewrite Hload. reflexivity.
  - apply exit_fault_reports.
Qed.

(** C7 fails on the code: a file of 4097 whole records and three more
    bytes is not loaded with 4097 instructions, the loader faults. *)
Lemma oversized_file_not_counted :
  let fd := (ret_allow_file 4097 ++ [x06; x00; x00])%list in
  Z.of_nat (length fd) / Z.pos sizeof_bpf_instr = 4097 /\
  load_program false fd = Some (inl (exit_fault false E2BIG)) /\
  ~ (exists prg : list bpf_instr,
       load_program false fd = Some (inr prg) /\
       Z.of_nat (length prg) = Z.of_nat (length fd) / Z.pos sizeof_bpf_instr).
Proof.
  intros fd.
  assert (Hrec : Z.of_nat (length fd) / Z.pos sizeof_bpf_instr = 4097).
  { unfold fd. rewrite ret_allow_file_records by (cbn; lia). reflexivity. }
  assert (Hload : load_program false fd = Some (inl (exit_fault false E2BIG))).
  { apply load_program_full. rewrite Hrec. unfold BPF_PRG_MAX_LEN. lia. }
  split; [exact Hrec|]. split; [exact Hload|].
  intros (prg & Hprg & _). rewrite Hload in Hprg. discriminate.
Qed.

Lemma partial_record_dropped_witness :
  let fd := (ret_allow_record ++ [x06; x00; x00])%list in
  Z.of_nat (length fd) / Z.pos sizeof_bpf_instr < BPF_PRG_MAX_LEN /\
  exists prg : list bpf_instr,
    load_program false fd = Some (inr prg) /\
    Z.of_nat (length prg) = Z.of_nat (length fd) / Z.pos sizeof_bpf_instr /\
    forall whole tail : list byte,
      fd = (whole ++ tail)%list ->
      (length whole mod Pos.to_nat sizeof_bpf_instr = 0)%nat ->
      (length tail < Pos.to_nat sizeof_bpf_instr)%nat ->
      load_program false whole = Some (inr prg).
Proof.
  intros fd. split; [reflexivity|].
  apply (partial_record_dropped false fd). reflexivity.
Defined.

(** The machine does not move on a JUMP-ALWAYS whose offset is 2^32 - 1:
    the pointer, bumped to 1, wraps back to 0. *)
Lemma ja_wrap_step (sys_data_b : list byte) :
  bpf_step false 32 [linux_ja 0xffffffff] sys_data_b sim_init = Next sim_init.
Proof. reflexivity. Qed.

(** C8 fails on the code: the program [JUMP-ALWAYS(0xffffffff)] has no
    JUMP-ALWAYS with k = 0, and its execution never ends, whatever the
    syscall record and however many iterations it is given. *)
Lemma wrapping_jump_never_ends :
  let prg := [linux_ja 0xffffffff] in
  Forall (fun i => instr_wf i = true) prg /\
  (forall bpf : bpf_instr,
     In bpf prg -> ~ (op bpf = BPF_JMP + BPF_JA /\ k bpf = 0)) /\
  forall (sys_data_b : list byte) (fuel : nat),
    bpf_execute false 32 prg sys_data_b fuel = None.
Proof.
  intros prg. split; [repeat constructor|]. split.
  - intros bpf [<-|[]] [_ Hk]. discriminate Hk.
  - intros sys_data_b fuel. unfold bpf_execute.
    induction fuel as [|fuel IH]; [reflexivity|].
    cbn [bpf_loop]. unfold prg. rewrite ja_wrap_step. exact IH.
Qed.

Lemma forward_programs_terminate_witness :
  let prg := [linux_ja 0; linux_ld_abs 0; linux_ret_k 0x7fff0000] in
  let sys := repeat x00 28 in
  Forall (fun i => instr_wf i = true) prg /\
  Z.of_nat (length prg) <= BPF_PRG_MAX_LEN /\
  ja_forward prg /\
  record_covers 32 sys /\
  exists e : process_exit,
    bpf_execute false 32 prg sys (S (length prg)) = Some (Exits e) /\
    terminal e.
Proof.
  intros prg sys.
  assert (Hwf : Forall (fun i => instr_wf i = true) prg)
    by (repeat constructor).
  assert (Hlen : Z.of_nat (length prg) <= BPF_PRG_MAX_LEN)
    by (cbn; discriminate).
  assert (Hfwd : ja_forward prg).
  { intros i bpf Hnth _. destruct i as [|[|[|i]]]; cbn in Hnth.
    - inversion Hnth. reflexivity.
    - inversion Hnth. reflexivity.
    - inversion Hnth. reflexivity.
    - destruct i; discriminate Hnth. }
  assert (Hcov : record_covers 32 sys) by (cbn; discriminate).
  repeat (split; [assumption|]).
  exact (forward_programs_terminate false 32 prg sys Hwf Hlen Hfwd Hcov).
Defined.

Lemma accumulator_is_a_byte_witness :
  let prg := [linux_ld_abs 0; linux_jgt_k 300 1 0;
              linux_ret_k 0; linux_ret_k 0x7fff0000] in
  let sys := (xff :: repeat x00 27)%list in
  let m := {| ip := 1; ip_c := 0;
              state := {| acc := 255; temp := repeat 0 6 |} |} in
  reachable false 32 prg sys m /\
  0 <= acc (state m) <= 255 /\
  bpf_step false 32 prg sys m = Next (jump m 1).
Proof.
  intros prg sys m.
  assert (Hreach : reachable false 32 prg sys m).
  { apply (reach_step false 32 prg sys sim_init); [apply reach_init|].
    reflexivity. }
  destruct (accumulator_is_a_byte false 32 prg sys m Hreach)
    as (Hacc & _ & _ & Hjmp).
  split; [exact Hreach|]. split; [exact Hacc|].
  destruct (Hjmp (linux_jgt_k 300 1 0) linux_case_labels eq_refl eq_refl)
    as (_ & Hgt & _).
  apply Hgt. reflexivity.
Defined.

(** ** The further results on the concrete host *)

Lemma jeq_jge_compare_immediate_witness :
  let jeq := {| op := 0x15; jt := 3; jf := 1; k := 7 |} in
  let jge := {| op := 0x35; jt := 3; jf := 1; k := 7 |} in
  let at7 := {| ip := 0; ip_c := 0; state := {| acc := 7; temp := repeat 0 6 |} |} in
  let at9 := {| ip := 0; ip_c := 0; state := {| acc := 9; temp := repeat 0 6 |} |} in
  NoDup case_labels /\
  bpf_step false 32 [jeq] [] at7 = Next (jump at7 3) /\
  bpf_step false 32 [jeq] [] at9 = Next (jump at9 1) /\
  bpf_step false 32 [jge] [] at7 = Next (jump at7 3) /\
  bpf_step false 32 [jge] [] at9 = Next (jump at9 1).
Proof.
  intros jeq jge at7 at9. split; [exact linux_case_labels|].
  destruct (jeq_jge_compare_immediate false 32 [jeq] [] at7 jeq
              linux_case_labels eq_refl) as [Heq7 _].
  destruct (jeq_jge_compare_immediate false 32 [jeq] [] at9 jeq
              linux_case_labels eq_refl) as [Heq9 _].
  destruct (jeq_jge_compare_immediate false 32 [jge] [] at7 jge
              linux_case_labels eq_refl) as [_ Hge7].
  destruct (jeq_jge_compare_immediate false 32 [jge] [] at9 jge
              linux_case_labels eq_refl) as [_ Hge9].
  split; [apply (Heq7 eq_refl); reflexivity|].
  split; [apply (Heq9 eq_refl); discriminate|].
  split; [apply (Hge7 eq_refl); cbn; lia|].
  apply (Hge9 eq_refl); cbn; lia.
Defined.

Lemma ja_relative_to_next_witness :
  NoDup case_labels /\
  exists m' : machine,
    bpf_step false 32 [linux_ja 2; linux_ret_k 0; linux_ret_k 0; linux_ret_k 0]
      [] sim_init = Next m' /\
    ip m' = (ip sim_init + 1 + 2) mod 2 ^ 32 /\
    ip_c m' = ip sim_init /\ state m' = state sim_init /\
    (2 = 0 -> ip sim_init + 1 < 2 ^ 32 -> ip m' = ip sim_init + 1).
Proof.
  split; [exact linux_case_labels|].
  exact (ja_relative_to_next false 32
           [linux_ja 2; linux_ret_k 0; linux_ret_k 0; linux_ret_k 0] []
           sim_init (linux_ja 2) linux_case_labels eq_refl eq_refl).
Defined.

Lemma ret_k_ends_with_action_witness :
  NoDup case_labels /\
  reachable false 32 [linux_ret_k 0x00020000] [] sim_init /\
  exists fuel : nat,
    bpf_execute false 32 [linux_ret_k 0x00020000] [] fuel
    = Some (Exits (exit_label "TRAP")).
Proof.
  split; [exact linux_case_labels|]. split; [apply reach_init|].
  exact (ret_k_ends_with_action false 32 [linux_ret_k 0x00020000] [] sim_init
           (linux_ret_k 0x00020000) linux_case_labels
           (reach_init false 32 _ _) eq_refl eq_refl).
Defined.

Lemma unsupported_opcode_faults_run_witness :
  let st := {| op := 0x02; jt := 0; jf := 0; k := 0 |} in
  reachable false 32 [st] [] sim_init /\
  ~ In (op st) case_labels /\
  exists fuel : nat,
    bpf_execute false 32 [st] [] fuel
    = Some (Exits (exit_fault false EOPNOTSUPP)) /\
    reports_FAULT (exit_fault false EOPNOTSUPP).
Proof.
  intros st.
  assert (Hop : ~ In (op st) case_labels)
    by (cbn; intuition discriminate).
  split; [apply reach_init|]. split; [exact Hop|].
  exact (unsupported_opcode_faults_run false 32 [st] [] sim_init st
           (reach_init false 32 _ _) eq_refl Hop).
Defined.


Lemma label_comes_from_return_witness :
  let prg := [linux_ja 1; linux_ret_k 0; linux_ret_k 0x7fff0000] in
  bpf_execute false 32 prg [] 2 = Some (Exits (exit_label "ALLOW")) /\
  out (exit_label "ALLOW") <> EmptyString /\
  exists (bpf : bpf_instr) (line : Z),
    In bpf prg /\ op bpf = BPF_RET + BPF_K /\
    exit_label "ALLOW" = end_action false (k bpf) line /\
    (out (exit_label "ALLOW") = "KILL" -> k bpf = 0x00000000) /\
    (out (exit_label "ALLOW") = "TRAP" -> k bpf = 0x00020000) /\
    (out (exit_label "ALLOW") = "ALLOW" -> k bpf = 0x7fff0000).
Proof.
  intros prg. split; [reflexivity|]. split; [discriminate|].
  apply (label_comes_from_return false 32 prg [] 2 (exit_label "ALLOW"));
    [reflexivity | discriminate].
Defined.

Lemma record_beyond_max_ignored_witness :
  let prg := [linux_ld_abs 0; linux_jgt_k 1 0 1;
              linux_ret_k 0x7fff0000; linux_ret_k 0] in
  let s1 := (repeat x00 28 ++ [x01; x02])%list in
  let s2 := (repeat x00 28 ++ [xff])%list in
  Forall (fun i => instr_wf i = true) prg /\
  agree_below (syscall_max 32) s1 s2 /\
  bpf_execute false 32 prg s1 3 = bpf_execute false 32 prg s2 3.
Proof.
  intros prg s1 s2.
  assert (Hwf : Forall (fun i => instr_wf i = true) prg)
    by (repeat constructor).
  assert (Hagree : agree_below (syscall_max 32) s1 s2).
  { intros off Hoff. change (syscall_max 32) with 28 in Hoff.
    unfold s1, s2. rewrite !nth_error_app1 by (rewrite repeat_length; lia).
    reflexivity. }
  split; [exact Hwf|]. split; [exact Hagree|].
  exact (record_beyond_max_ignored false 32 prg s1 s2 3 Hwf Hagree).
Defined.

Lemma line_is_an_instruction_witness :
  let prg := [linux_ja 5] in
  let m := {| ip := 6; ip_c := 0; state := {| acc := 0; temp := repeat 0 6 |} |} in
  prg <> [] /\
  reachable false 32 prg [] m /\
  0 <= ip_c m < Z.of_nat (length prg).
Proof.
  intros prg m.
  assert (Hne : prg <> []) by discriminate.
  assert (Hreach : reachable false 32 prg [] m).
  { apply (reach_step false 32 prg [] sim_init); [apply reach_init|].
    reflexivity. }
  split; [exact Hne|]. split; [exact Hreach|].
  exact (line_is_an_instruction false 32 prg [] m Hne Hreach).
Defined.

Lemma loader_decodes_records_witness :
  let recs := [[x20; x00; x00; x00; x04; x00; x00; x00]; ret_allow_record] in
  Forall (fun r => length r = Pos.to_nat sizeof_bpf_instr) recs /\
  Z.of_nat (length recs) < BPF_PRG_MAX_LEN /\
  load_program false (concat recs)
  = Some (inr [linux_ld_abs 4; linux_ret_k 0x7fff0000]) /\
  main false 32 2 (concat recs) (repeat x00 28)
  = bpf_execute false 32 [linux_ld_abs 4; linux_ret_k 0x7fff0000]
      (repeat x00 28) 2.
Proof.
  intros recs.
  assert (Hrecs : Forall (fun r => length r = Pos.to_nat sizeof_bpf_instr) recs)
    by (repeat constructor).
  assert (Hcap : Z.of_nat (length recs) < BPF_PRG_MAX_LEN) by reflexivity.
  split; [exact Hrecs|]. split; [exact Hcap|].
  exact (loader_decodes_records false 32 recs (repeat x00 28) 2 Hrecs Hcap).
Defined.

Lemma args_stored_in_one_width_witness :
  let opts := [ {| opt := "m"; optarg := "64" |};
                {| opt := "s"; optarg := "59" |};
                {| opt := "0"; optarg := "7" |};
                {| opt := "v"; optarg := EmptyString |} ] in
  let st := {| cl_file := None; cl_arg_flag := true; cl_machine := 64;
               cl_verbose := true;
               cl_sys_data := [Store_sys 59; Store_m64 0 7] |} in
  getopt_loop strtol_decimal "bpf_sim" opts cli_init = inr st /\
  In (Store_m64 0 7) (cl_sys_data st) /\
  store_width (Store_m64 0 7) = Some 64 /\
  64 = cl_machine st.
Proof.
  intros opts st.
  assert (Hrun : getopt_loop strtol_decimal "bpf_sim" opts cli_init = inr st)
    by reflexivity.
  assert (Hin : In (Store_m64 0 7) (cl_sys_data st)) by (right; left; reflexivity).
  split; [exact Hrun|]. split; [exact Hin|]. split; [reflexivity|].
  exact (args_stored_in_one_width strtol_decimal "bpf_sim" opts st
           (Store_m64 0 7) 64 Hrun Hin eq_refl).
Defined.

Lemma machine_after_argument_is_usage_witness :
  let pre := [ {| opt := "s"; optarg := "1" |};
               {| opt := "3"; optarg := "42" |} ] in
  let o := {| opt := "m"; optarg := "64" |} in
  let post := [ {| opt := "f"; optarg := "prog.bpf" |} ] in
  opt o = "m"%char /\
  Exists (fun a => is_arg_opt (opt a) = true) pre /\
  getopt_loop strtol_decimal "bpf_sim" (pre ++ o :: post) cli_init
  = inl (exit_usage "bpf_sim").
Proof.
  intros pre o post.
  assert (Hex : Exists (fun a => is_arg_opt (opt a) = true) pre)
    by (right; left; reflexivity).
  split; [reflexivity|]. split; [exact Hex|].
  exact (machine_after_argument_is_usage strtol_decimal "bpf_sim" pre post o
           eq_refl Hex).
Defined.
